(** * PuzzleSolver: the 8-puzzle search engine of [PuzzleSolver.py]

    A shallow embedding of the solvability test [is_solvable], the heuristic
    [manhattan_distance] and the best-first search [a_star_solver], then of
    the code around them ([split_image], [draw_tiles], [shuffle_tiles], the
    main loop of [run_puzzle_game] and the state of [PuzzleGameGUI]),
    followed by the properties proved about them.

    Python integers are unbounded, so tile identifiers, indices and scores
    are [Z].  Python lists and tuples of integers are [list Z]; the
    dictionaries keyed by tuples ([came_from], [g_score], [f_score]) are
    [gmap (list Z) _].  A raised exception is a value [Raise e] of the result
    type [res]; a loop that may run for an unknown number of rounds takes a
    [fuel] argument and yields [None] when the fuel is exhausted. *)

From stdpp Require Import gmap pmap list sorting strings.
From Stdlib Require Import ZArith Lia Ascii.

Local Open Scope Z_scope.

(** ** Constants (lines 8-13 of the source) *)

Definition GRID_SIZE : Z := 3.
Definition BLANK_TILE : Z := -1.

(** ** Exceptions and results *)

Inductive exn : Set := ValueError | IndexError | KeyError.

Inductive res (A : Type) : Type :=
| Ok (a : A)
| Raise (e : exn).
Arguments Ok {A} a.
Arguments Raise {A} e.

Definition res_bind {A B} (m : res A) (k : A → res B) : res B :=
  match m with
  | Ok a => k a
  | Raise e => Raise e
  end.

Notation "'do' x <- m ; k" := (res_bind m (λ x, k))
  (at level 10, x name, m at level 100, k at level 200).

(** ** Built-in list operations used by the source *)

(** [l.index(x)]: position of the first occurrence, [ValueError] if none. *)
Fixpoint index (x : Z) (l : list Z) : res Z :=
  match l with
  | [] => Raise ValueError
  | y :: l' => if decide (y = x) then Ok 0 else do i <- index x l'; Ok (1 + i)
  end.

(** Subscript normalisation: a negative subscript counts from the end. *)
Definition norm_index (l : list Z) (i : Z) : res nat :=
  let j := if decide (i < 0) then i + Z.of_nat (length l) else i in
  if decide (0 ≤ j < Z.of_nat (length l)) then Ok (Z.to_nat j) else Raise IndexError.

(** [l[i]] *)
Definition getitem (l : list Z) (i : Z) : res Z :=
  do k <- norm_index l i;
  match l !! k with
  | Some v => Ok v
  | None => Raise IndexError
  end.

(** [l[i] = v] *)
Definition setitem (l : list Z) (i : Z) (v : Z) : res (list Z) :=
  do k <- norm_index l i; Ok (<[k := v]> l).

Definition sum_Z (l : list Z) : Z := foldr Z.add 0 l.

(** ** [is_solvable] (lines 86-96) *)

Definition inversions (indices : list Z) : Z :=
  sum_Z (i ← seq 0 (length indices);
         j ← seq (i + 1) (length indices - (i + 1));
         if decide (nth i indices 0 > nth j indices 0) then [1] else []).

Definition is_solvable (tiles : list Z) : bool :=
  let indices := filter (λ tile, tile ≠ BLANK_TILE) tiles in
  bool_decide (inversions indices `mod` 2 = 0).

(** ** [manhattan_distance] (lines 126-137) *)

(** The generator of the sum, walked with the running position [i] of
    [enumerate(state)]. *)
Fixpoint manhattan_terms (i : Z) (state goal : list Z) : res (list Z) :=
  match state with
  | [] => Ok []
  | tile :: rest =>
      if decide (tile ≠ BLANK_TILE) then
        do k <- index tile goal;
        do ts <- manhattan_terms (i + 1) rest goal;
        Ok ((Z.abs (k `mod` GRID_SIZE - i `mod` GRID_SIZE)
             + Z.abs (k `div` GRID_SIZE - i `div` GRID_SIZE)) :: ts)
      else manhattan_terms (i + 1) rest goal
  end.

Definition manhattan_distance (state goal : list Z) : res Z :=
  do ts <- manhattan_terms 0 state goal; Ok (sum_Z ts).

(** ** The priority queue

    [queue.PriorityQueue] is a binary heap over the entries
    [(f, tuple)], compared as Python compares tuples.  [get] removes a least
    entry; two entries that compare equal are the same value, so the order
    in which entries leave the queue does not depend on the heap's layout.
    The queue is kept here as a list in ascending order. *)

Definition entry : Type := Z * list Z.

Fixpoint tuple_ltb (a b : list Z) : bool :=
  match a, b with
  | [], [] => false
  | [], _ :: _ => true
  | _ :: _, [] => false
  | x :: a', y :: b' => if decide (x = y) then tuple_ltb a' b' else bool_decide (x < y)
  end.

Definition entry_ltb (a b : entry) : bool :=
  if decide (a.1 = b.1) then tuple_ltb a.2 b.2 else bool_decide (a.1 < b.1).

Fixpoint pq_put (x : entry) (q : list entry) : list entry :=
  match q with
  | [] => [x]
  | y :: q' => if entry_ltb y x then y :: pq_put x q' else x :: q
  end.

Definition pq_get (q : list entry) : option (entry * list entry) :=
  match q with
  | [] => None
  | x :: q' => Some (x, q')
  end.

(** ** [a_star_solver] (lines 140-181) *)

Record search_state : Type := SearchState {
  open_set : list entry;
  came_from : gmap (list Z) (list Z);
  g_score : gmap (list Z) Z;
  f_score : gmap (list Z) Z
}.

Definition directions : list (Z * Z) := [(-1, 0); (1, 0); (0, -1); (0, 1)].

(** The body of the [for dr, dc in ...] loop (lines 168-180). *)
Definition relax (goal current : list Z) (blank_idx row col : Z)
    (st : search_state) (d : Z * Z) : res search_state :=
  let nr := row + d.1 in
  let nc := col + d.2 in
  if decide ((0 ≤ nr < GRID_SIZE) ∧ (0 ≤ nc < GRID_SIZE)) then
    let swap_idx := nr * GRID_SIZE + nc in
    do a <- getitem current swap_idx;
    do b <- getitem current blank_idx;
    do n1 <- setitem current blank_idx a;
    do neighbor <- setitem n1 swap_idx b;
    do gc <- match g_score st !! current with
             | Some g => Ok g
             | None => Raise KeyError
             end;
    let tentative_g_score := gc + 1 in
    if match g_score st !! neighbor with
       | Some gn => bool_decide (tentative_g_score < gn)
       | None => true
       end
    then
      do h <- manhattan_distance neighbor goal;
      Ok {| open_set := pq_put (tentative_g_score + h, neighbor) (open_set st);
            came_from := <[neighbor := current]> (came_from st);
            g_score := <[neighbor := tentative_g_score]> (g_score st);
            f_score := <[neighbor := tentative_g_score + h]> (f_score st) |}
    else Ok st
  else Ok st.

Fixpoint for_each {A S : Type} (body : S → A → res S) (st : S) (l : list A) : res S :=
  match l with
  | [] => Ok st
  | x :: l' => do st' <- body st x; for_each body st' l'
  end.

(** Lines 163-180: expansion of the state just taken from the queue. *)
Definition expand (goal current : list Z) (st : search_state) : res search_state :=
  do blank_idx <- index BLANK_TILE current;
  let row := blank_idx `div` GRID_SIZE in
  let col := blank_idx `mod` GRID_SIZE in
  for_each (relax goal current blank_idx row col) st directions.

(** Lines 157-161: the walk along the predecessor links. *)
Fixpoint reconstruct (fuel : nat) (cf : gmap (list Z) (list Z))
    (current : list Z) (path : list (list Z)) : option (list (list Z)) :=
  match fuel with
  | O => None
  | S fuel' =>
      match cf !! current with
      | Some prev => reconstruct fuel' cf prev (path ++ [current])
      | None => Some (reverse path)
      end
  end.

(** One round of the [while not open_set.empty()] loop. *)
Inductive round : Type :=
| Found (current : list Z) (st : search_state)
| Exhausted
| Failed (e : exn)
| Continue (st : search_state).

Definition search_round (goal : list Z) (st : search_state) : round :=
  match pq_get (open_set st) with
  | None => Exhausted
  | Some ((_, current), rest) =>
      let st1 := {| open_set := rest; came_from := came_from st;
                    g_score := g_score st; f_score := f_score st |} in
      if decide (current = goal) then Found current st1
      else match expand goal current st1 with
           | Ok st2 => Continue st2
           | Raise e => Failed e
           end
  end.

Fixpoint search (fuel : nat) (goal : list Z) (st : search_state)
    : option (res (list (list Z))) :=
  match fuel with
  | O => None
  | S fuel' =>
      match search_round goal st with
      | Exhausted => Some (Ok [])
      | Failed e => Some (Raise e)
      | Found current st1 => Ok <$> reconstruct fuel' (came_from st1) current []
      | Continue st2 => search fuel' goal st2
      end
  end.

Definition initial_state (initial : list Z) (h : Z) : search_state :=
  {| open_set := pq_put (0, initial) [];
     came_from := ∅;
     g_score := {[ initial := 0 ]};
     f_score := {[ initial := h ]} |}.

Definition a_star_solver (fuel : nat) (initial goal : list Z)
    : option (res (list (list Z))) :=
  match manhattan_distance initial goal with
  | Raise e => Some (Raise e)
  | Ok h => search fuel goal (initial_state initial h)
  end.


(** ** Configurations, moves and routes: the vocabulary of the properties *)

(** The goal of the game as [split_image] numbers it (line 82). *)
Definition canonical : list Z := [1; 2; 3; 4; 5; 6; 7; 8; BLANK_TILE].

(** A valid configuration holds every identifier exactly once. *)
Definition valid (c : list Z) : Prop := c ≡ₚ canonical.

(** The identifiers of a configuration in row-major order, blank removed. *)
Definition non_blank (c : list Z) : list Z := filter (λ tile, tile ≠ BLANK_TILE) c.

(** Two cells of the grid are orthogonal neighbours. *)
Definition adjacent (i j : Z) : Prop :=
  0 ≤ i < GRID_SIZE * GRID_SIZE ∧ 0 ≤ j < GRID_SIZE * GRID_SIZE ∧
  Z.abs (i `div` GRID_SIZE - j `div` GRID_SIZE)
  + Z.abs (i `mod` GRID_SIZE - j `mod` GRID_SIZE) = 1.

(** A legal move swaps the blank with the tile of a neighbouring cell. *)
Definition move (s t : list Z) : Prop :=
  ∃ (i j : nat) (x : Z),
    s !! i = Some BLANK_TILE ∧ s !! j = Some x ∧
    adjacent (Z.of_nat i) (Z.of_nat j) ∧
    t = <[j := BLANK_TILE]> (<[i := x]> s).

(** [route s p t]: [p] lists the configurations met after [s] on a walk of
    legal moves that ends in [t]; [p] is empty exactly when no move is made. *)
Inductive route (s : list Z) : list (list Z) → list Z → Prop :=
| route_nil : route s [] s
| route_snoc p y x : route s p y → move y x → route s (p ++ [x]) x.

(** The call [a_star_solver(initial, goal)] returns [r]: it does so with
    some amount of fuel and with every larger one. *)
Definition returns (initial goal : list Z) (r : res (list (list Z))) : Prop :=
  ∃ fuel, ∀ fuel', (fuel ≤ fuel')%nat → a_star_solver fuel' initial goal = Some r.

(** *** Counting inversions by recursion on the list *)

Definition count_smaller (x : Z) (l : list Z) : Z :=
  sum_Z ((λ y, if decide (x > y) then 1 else 0) <$> l).

Fixpoint inv_count (l : list Z) : Z :=
  match l with
  | [] => 0
  | x :: l' => count_smaller x l' + inv_count l'
  end.

(** *** The width-dependent parity rule of the specification

    For a grid of width [n] whose goal keeps the blank in the last row:
    with [n] odd the inversions must be even, with [n] even the inversions
    plus the blank's row distance from the last row must be even. *)
Definition blank_row_distance (n : Z) (c : list Z) : Z :=
  match index BLANK_TILE c with
  | Ok k => Z.abs (k `div` n - (n - 1))
  | Raise _ => 0
  end.

Definition width_rule (n : Z) (c : list Z) : bool :=
  if Z.odd n then Z.even (inv_count (non_blank c))
  else Z.even (inv_count (non_blank c) + blank_row_distance n c).

Definition ex_fifteen : list Z :=
  [1; 2; 3; 4; 5; 6; 7; 8; 9; 10; 11; BLANK_TILE; 13; 14; 15; 12].

(** *** Position-wise and tile-wise reading of the heuristic *)

(** Cell of tile [t] in [c] ([0] when absent). *)
Definition position (c : list Z) (t : Z) : Z :=
  match index t c with
  | Ok k => k
  | Raise _ => 0
  end.

(** Grid distance between cells [i] and [k]. *)
Definition cell_distance (i k : Z) : Z :=
  Z.abs (k `mod` GRID_SIZE - i `mod` GRID_SIZE)
  + Z.abs (k `div` GRID_SIZE - i `div` GRID_SIZE).

(** Distance of tile [t] between its cells in [state] and in [goal]. *)
Definition tile_distance (state goal : list Z) (t : Z) : Z :=
  cell_distance (position state t) (position goal t).

Definition tiles : list Z := [1; 2; 3; 4; 5; 6; 7; 8].

(** What the tile in cell [i] contributes to the heuristic. *)
Definition cost (goal : list Z) (i t : Z) : Z :=
  if decide (t = BLANK_TILE) then 0 else cell_distance i (position goal t).

Fixpoint wsum (goal : list Z) (i : Z) (state : list Z) : Z :=
  match state with
  | [] => 0
  | t :: rest => cost goal i t + wsum goal (i + 1) rest
  end.

(** The heuristic as a total function. *)
Definition hval (goal state : list Z) : Z := wsum goal 0 state.

Definition ex_start : list Z := [1; 2; 3; 4; BLANK_TILE; 6; 7; 5; 8].
Definition ex_goal : list Z := [1; 2; 3; 4; 5; 6; 7; 8; BLANK_TILE].
Definition ex_mid : list Z := [1; 2; 3; 4; 5; 6; 7; BLANK_TILE; 8].
Definition ex_swapped : list Z := [2; 1; 3; 4; 5; 6; 7; 8; BLANK_TILE].

(** A start holds a tile that the goal lacks. *)
Definition missing_identifier (start goal : list Z) : Prop :=
  ∃ t, t ∈ start ∧ t ≠ BLANK_TILE ∧ t ∉ goal.

Definition ex_short : list Z := [1; 1; 3; 4; 5; 6; 7; BLANK_TILE].

(** *** The search, seen from the proofs *)

(** Cell that the blank at cell [b] swaps with in direction [d], under the
    bounds check of line 169. *)
Definition target (b : Z) (d : Z * Z) : option Z :=
  let nr := b `div` GRID_SIZE + d.1 in
  let nc := b `mod` GRID_SIZE + d.2 in
  if decide ((0 ≤ nr < GRID_SIZE) ∧ (0 ≤ nc < GRID_SIZE))
  then Some (nr * GRID_SIZE + nc) else None.

(** The test of line 176. *)
Definition improves (st : search_state) (neighbor : list Z) (g : Z) : bool :=
  match g_score st !! neighbor with
  | Some gn => bool_decide (g < gn)
  | None => true
  end.

(** The updates of lines 177-180. *)
Definition record_step (goal current neighbor : list Z) (g : Z)
    (st : search_state) : search_state :=
  {| open_set := pq_put (g + hval goal neighbor, neighbor) (open_set st);
     came_from := <[neighbor := current]> (came_from st);
     g_score := <[neighbor := g]> (g_score st);
     f_score := <[neighbor := g + hval goal neighbor]> (f_score st) |}.

(** The state once the head of the queue is taken. *)
Definition popped (rest : list entry) (st : search_state) : search_state :=
  {| open_set := rest; came_from := came_from st;
     g_score := g_score st; f_score := f_score st |}.

(** The invariant of the [while] loop. *)
Record Inv (start : list Z) (st : search_state) : Prop := {
  inv_valid : ∀ x g, g_score st !! x = Some g → valid x ∧ 0 ≤ g;
  inv_start : g_score st !! start = Some 0;
  inv_link : ∀ x y, came_from st !! x = Some y →
    move y x ∧ ∃ gy gx,
      g_score st !! y = Some gy ∧ g_score st !! x = Some gx ∧ gy + 1 ≤ gx;
  inv_linked : ∀ x g, g_score st !! x = Some g → x ≠ start →
    is_Some (came_from st !! x);
  inv_open : ∀ p x, (p, x) ∈ open_set st →
    ∃ g, g_score st !! x = Some g ∧ g ≤ p;
  inv_sorted : StronglySorted (λ a b : entry, a.1 ≤ b.1) (open_set st)
}.

(** How a later state of the search relates to an earlier one: scores only
    improve, the queue only grows, and a state whose score changed is queued
    with that score. *)
Record extends (goal : list Z) (st st' : search_state) : Prop := {
  ext_g : ∀ x g, g_score st !! x = Some g →
    ∃ g', g_score st' !! x = Some g' ∧ g' ≤ g;
  ext_open : ∀ e, e ∈ open_set st → e ∈ open_set st';
  ext_new : ∀ x g', g_score st' !! x = Some g' →
    g_score st !! x = Some g' ∨ (g' + hval goal x, x) ∈ open_set st'
}.

(** Along a walk [ns] from the start to the goal, a configuration whose
    score is at most its rank on the walk is queued with a priority that
    does not exceed rank plus heuristic, unless its successor on the walk
    already has a score at most its own rank. *)
Definition frontier_ok (goal : list Z) (ns : list (list Z))
    (st : search_state) : Prop :=
  ∀ (j : nat) a g, ns !! j = Some a → g_score st !! a = Some g → g ≤ Z.of_nat j →
    (∃ p, (p, a) ∈ open_set st ∧ p ≤ Z.of_nat j + hval goal a) ∨
    (∃ b g', ns !! S j = Some b ∧ g_score st !! b = Some g' ∧ g' ≤ Z.of_nat (S j)).

(** The termination measure: the configurations not yet scored, then twice
    the sum of the scores plus the length of the queue. *)
Definition g_total (st : search_state) : Z :=
  map_fold (λ (_ : list Z) (g acc : Z), g + acc) 0 (g_score st).

Definition unseen (goal : list Z) (st : search_state) : nat :=
  size (list_to_set (permutations goal) : gset (list Z)) - size (g_score st).

Definition work (st : search_state) : nat :=
  Z.to_nat (2 * g_total st) + length (open_set st).

Definition lex_le (goal : list Z) (st' st : search_state) : Prop :=
  (unseen goal st' < unseen goal st)%nat ∨
  (unseen goal st' = unseen goal st ∧ (work st' ≤ work st)%nat).

Definition lex_lt (goal : list Z) (st' st : search_state) : Prop :=
  (unseen goal st' < unseen goal st)%nat ∨
  (unseen goal st' = unseen goal st ∧ (work st' < work st)%nat).

(** *** Exhaustive exploration from the goal of the game

    A breadth-first exploration of the move graph, used to decide which
    configurations can reach [canonical].  It is a device of the proofs, not
    part of the program: [neighbors] lists the configurations one legal move
    away, [bfs] explores [rounds] levels, keeping the configurations met in
    a map keyed by [code]. *)

Definition code (c : list Z) : positive :=
  foldl (λ acc x, Pos.add (xO (xO (xO (xO acc)))) (Z.to_pos (x + 2))) 1%positive c.

Definition neighbors (c : list Z) : list (list Z) :=
  match index BLANK_TILE c with
  | Ok b =>
      omap (λ d, match target b d with
                 | Some j =>
                     match c !! Z.to_nat j with
                     | Some x => Some (<[Z.to_nat j := BLANK_TILE]> (<[Z.to_nat b := x]> c))
                     | None => None
                     end
                 | None => None
                 end) directions
  | Raise _ => []
  end.

Definition visit (acc : list (list Z) * Pmap (list Z)) (t : list Z)
    : list (list Z) * Pmap (list Z) :=
  match acc.2 !! code t with
  | Some _ => acc
  | None => (t :: acc.1, <[code t := t]> acc.2)
  end.

Fixpoint bfs (rounds : nat) (frontier : list (list Z)) (visited : Pmap (list Z))
    : Pmap (list Z) :=
  match rounds with
  | O => visited
  | S n =>
      let acc := foldl (λ acc s, foldl visit acc (neighbors s)) ([], visited) frontier in
      bfs n acc.1 acc.2
  end.

Definition reached : Pmap (list Z) :=
  bfs 31 [canonical] {[ code canonical := canonical ]}.

(** A configuration with an even number of inversions is in the map. *)
Definition covered (vis : Pmap (list Z)) (c : list Z) : bool :=
  implb (Z.even (inv_count (non_blank c)))
        (match vis !! code c with
         | Some s => bool_decide (s = c)
         | None => false
         end).

(** [canonical] reaches [s] in at most [n] moves. *)
Definition reach_within (n : nat) (s : list Z) : Prop :=
  ∃ p, route canonical p s ∧ (length p ≤ n)%nat.

Definition sound (n : nat) (vis : Pmap (list Z)) : Prop :=
  ∀ k s, vis !! k = Some s → reach_within n s.

(** ** The window, the picture and its tiles (lines 8-12 and 68-83) *)

Definition WIDTH : Z := 600.
Definition HEIGHT : Z := 600.
Definition TILE_SIZE : Z := WIDTH `div` GRID_SIZE.

(** [pygame.Rect(left, top, width, height)] *)
Record rect : Type := Rect { rect_x : Z; rect_y : Z; rect_w : Z; rect_h : Z }.


(** [image.subsurface(r)] on the picture scaled to [WIDTH] x [HEIGHT]:
    pygame raises [ValueError] for a rectangle that leaves the surface.  A
    tile is represented by the rectangle of the picture it is a copy of. *)
Definition subsurface (r : rect) : res rect :=
  if decide (0 ≤ rect_x r ∧ 0 ≤ rect_y r ∧ 0 ≤ rect_w r ∧ 0 ≤ rect_h r ∧
             rect_x r + rect_w r ≤ WIDTH ∧ rect_y r + rect_h r ≤ HEIGHT)
  then Ok r else Raise ValueError.

(** [range(a, b)] *)
Definition range (a b : Z) : list Z := (λ k, a + Z.of_nat k) <$> seq 0 (Z.to_nat (b - a)).

(** A list comprehension whose element expression may raise. *)
Fixpoint collect {A B : Type} (f : A → res B) (l : list A) : res (list B) :=
  match l with
  | [] => Ok []
  | x :: l' => do y <- f x; do ys <- collect f l'; Ok (y :: ys)
  end.

(** Subscripts on a list of any element type, as [norm_index] has them. *)
Definition subscript {A : Type} (l : list A) (i : Z) : res nat :=
  let j := if decide (i < 0) then i + Z.of_nat (length l) else i in
  if decide (0 ≤ j < Z.of_nat (length l)) then Ok (Z.to_nat j) else Raise IndexError.

Definition item {A : Type} (l : list A) (i : Z) : res A :=
  do k <- subscript l i;
  match l !! k with
  | Some v => Ok v
  | None => Raise IndexError
  end.

Definition set_item {A : Type} (l : list A) (i : Z) (v : A) : res (list A) :=
  do k <- subscript l i; Ok (<[k := v]> l).

(** [split_image], from the scaled picture on: the tiles, with [None] for
    the last one, and the numbering of the solved puzzle. *)
Definition split_image : res (list (option rect) * list Z) :=
  do tiles <- collect
       (λ ij : Z * Z,
          do t <- subsurface (Rect (ij.2 * TILE_SIZE) (ij.1 * TILE_SIZE) TILE_SIZE TILE_SIZE);
          Ok (Some t))
       (i ← range 0 GRID_SIZE; j ← range 0 GRID_SIZE; [(i, j)]);
  do tiles <- set_item tiles (-1) None;
  let numbered_tiles := range 1 (GRID_SIZE * GRID_SIZE) ++ [BLANK_TILE] in
  Ok (tiles, numbered_tiles).

(** ** [draw_tiles] (lines 110-122) *)

(** What [draw_tiles] asks of the screen: [screen.blit(tile, (x, y))] with
    the tile given by the rectangle it was cut from, or
    [pygame.draw.rect(screen, WHITE, r)]. *)
Inductive draw_op : Type :=
| Blit (src : rect) (x y : Z)
| FillWhite (r : rect).

(** What can go wrong in [draw_tiles]: the subscript on [image_tiles], or
    the [TypeError] of [blit] when the tile is [None]. *)
Inductive draw_exn : Type :=
| ListError (e : exn)
| TypeError.

(** The rectangle of the window that cell [i] occupies. *)
Definition cell_rect (i : Z) : rect :=
  Rect ((i `mod` GRID_SIZE) * TILE_SIZE) ((i `div` GRID_SIZE) * TILE_SIZE)
       TILE_SIZE TILE_SIZE.

(** The loop of [draw_tiles] from position [i] on: the operations carried
    out, and the exception that stopped it, if any. *)
Fixpoint draw_from (i : Z) (image_tiles : list (option rect)) (numbered_tiles : list Z)
    : list draw_op * option draw_exn :=
  match numbered_tiles with
  | [] => ([], None)
  | number :: rest =>
      let x := (i `mod` GRID_SIZE) * TILE_SIZE in
      let y := (i `div` GRID_SIZE) * TILE_SIZE in
      if decide (number ≠ BLANK_TILE) then
        match item image_tiles (number - 1) with
        | Raise e => ([], Some (ListError e))
        | Ok None => ([], Some TypeError)
        | Ok (Some tile) =>
            let r := draw_from (i + 1) image_tiles rest in
            (Blit tile x y :: r.1, r.2)
        end
      else
        let r := draw_from (i + 1) image_tiles rest in
        (FillWhite (Rect x y TILE_SIZE TILE_SIZE) :: r.1, r.2)
  end.

Definition draw_tiles (image_tiles : list (option rect)) (numbered_tiles : list Z)
    : list draw_op * option draw_exn :=
  draw_from 0 image_tiles numbered_tiles.

(** The tiles as [split_image] leaves them. *)
Definition image_tiles_of_split : list (option rect) :=
  (Some ∘ cell_rect <$> range 0 8) ++ [None].

(** The rectangle of the window that an operation paints. *)
Definition painted (op : draw_op) : rect :=
  match op with
  | Blit src x y => Rect x y (rect_w src) (rect_h src)
  | FillWhite r => r
  end.

(** ** [shuffle_tiles] (lines 99-107)

    [random.shuffle] is outside the program: [rnd k l] stands for the
    arrangement that the [k]-th call leaves in a list that held [l]. *)
Fixpoint shuffle_tiles (rnd : nat → list Z → list Z) (fuel k : nat)
    (numbered_tiles : list Z) : option (list Z) :=
  match fuel with
  | O => None
  | S fuel' =>
      let shuffled := rnd k numbered_tiles in
      if is_solvable shuffled then Some shuffled
      else shuffle_tiles rnd fuel' (S k) shuffled
  end.

(** The arrangement after [n + 1] calls of [random.shuffle]. *)
Fixpoint attempt (rnd : nat → list Z → list Z) (k n : nat) (l : list Z) : list Z :=
  match n with
  | O => rnd k l
  | S n' => attempt rnd (S k) n' (rnd k l)
  end.

(** ** The main loop of [run_puzzle_game] (lines 202-219) *)

(** Lines 212-214: the configuration shown and the counter [step]. *)
Definition next_frame (solution : list (list Z)) (st : list Z * nat) : list Z * nat :=
  match solution !! st.2 with
  | Some c => (c, S st.2)
  | None => st
  end.

(** The state after [n] rounds of the loop. *)
Definition playback (solution : list (list Z)) (numbered_tiles : list Z) (n : nat)
    : list Z * nat :=
  Nat.iter n (next_frame solution) (numbered_tiles, 0%nat).

(** What round [n] of the main loop draws (lines 196-218), for the shuffles
    [rnd]: [None] when the fuel of the shuffle loop or of the solver runs
    out. *)
Definition run_puzzle_game (rnd : nat → list Z → list Z) (fuel_shuffle fuel_solver n : nat)
    : option (res (list draw_op * option draw_exn)) :=
  match split_image with
  | Raise e => Some (Raise e)
  | Ok (image_tiles, numbered_tiles) =>
      let goal := numbered_tiles in
      match shuffle_tiles rnd fuel_shuffle 0 numbered_tiles with
      | None => None
      | Some shuffled =>
          match a_star_solver fuel_solver shuffled goal with
          | None => None
          | Some (Raise e) => Some (Raise e)
          | Some (Ok solution) =>
              Some (Ok (draw_tiles image_tiles (playback solution shuffled n).1))
          end
      end
  end.

(** A number that [draw_tiles] can draw with the tiles of [split_image]. *)
Definition drawable (n : Z) : Prop := -8 ≤ n ≤ 8 ∧ n ≠ 0.

(** What [draw_tiles] does in cell [i] for the number [n]. *)
Definition cell_op (i n : Z) : draw_op :=
  if decide (n = BLANK_TILE) then FillWhite (cell_rect i)
  else Blit (cell_rect ((n - 1) `mod` 9)) (rect_x (cell_rect i)) (rect_y (cell_rect i)).

(** ** The launcher window: [PuzzleGameGUI] (lines 17-64)

    The widgets are outside the program; what the class keeps is the path of
    the picture, the text of the label and whether the start button is
    enabled.  The dialog of [upload_image] is represented by the path it
    returns, empty when the user cancels. *)

Record gui : Type := Gui {
  image_path : option string;
  label_text : string;
  start_enabled : bool
}.

(** [__init__] and [init_ui]. *)
Definition gui_init : gui :=
  {| image_path := None;
     label_text := "Select an image to start the puzzle game.";
     start_enabled := false |}.

Definition slash : Ascii.ascii := "/"%char.

(** [s.split(sep)] for a separator of one character. *)
Fixpoint split_on (sep : Ascii.ascii) (s : string) : list string :=
  match s with
  | EmptyString => [EmptyString]
  | String c s' =>
      if decide (c = sep) then EmptyString :: split_on sep s'
      else match split_on sep s' with
           | piece :: pieces => String c piece :: pieces
           | [] => [String c EmptyString]
           end
  end.

Definition upload_image (file_path : string) (g : gui) : res gui :=
  if decide (file_path ≠ EmptyString) then
    do name <- item (split_on slash file_path) (-1);
    Ok {| image_path := Some file_path;
          label_text := "Selected Image: " +:+ name;
          start_enabled := true |}
  else
    Ok {| image_path := image_path g;
          label_text := "No image selected. Please upload an image.";
          start_enabled := start_enabled g |}.

(** [start_game]: the path with which the window closes and
    [run_puzzle_game] is called, if any. *)
Definition start_game (g : gui) : option string :=
  match image_path g with
  | Some p => if decide (p ≠ EmptyString) then Some p else None
  | None => None
  end.

(** The character occurs in the string. *)
Fixpoint has_char (c : Ascii.ascii) (s : string) : bool :=
  match s with
  | EmptyString => false
  | String c' s' => if decide (c' = c) then true else has_char c s'
  end.

(** The pieces, each followed by the separator. *)
Fixpoint join_before (sep : Ascii.ascii) (pieces : list string) : string :=
  match pieces with
  | [] => EmptyString
  | p :: ps => p +:+ String sep (join_before sep ps)
  end.


(** *** Renaming the tiles 1 and 2 into each other *)

Definition swap12 (x : Z) : Z :=
  if decide (x = 1) then 2 else if decide (x = 2) then 1 else x.

(** Occurrences of [x] in [l]. *)
Definition occ (x : Z) (l : list Z) : Z :=
  sum_Z ((λ y, if decide (y = x) then 1 else 0) <$> l).

(** What the renaming adds to the number of inversions: the pairs with 1
    before 2 count for it, the pairs with 2 before 1 against it. *)
Fixpoint cross12 (l : list Z) : Z :=
  match l with
  | [] => 0
  | x :: l' =>
      (if decide (x = 1) then occ 2 l' else if decide (x = 2) then - occ 1 l' else 0)
      + cross12 l'
  end.

(** * Properties *)

(** ** The definitions on concrete inputs *)

Example is_solvable_ex_start : is_solvable ex_start = true.
Proof. reflexivity. Qed.

Example inversions_ex_swapped : inversions (non_blank ex_swapped) = 1.
Proof. reflexivity. Qed.

Example manhattan_distance_ex : manhattan_distance ex_start ex_goal = Ok 2.
Proof. reflexivity. Qed.

Example manhattan_distance_absent : manhattan_distance [9] ex_goal = Raise ValueError.
Proof. reflexivity. Qed.

Example expand_ex_start :
  match expand ex_goal ex_start (initial_state ex_start 2) with
  | Ok st => open_set st
  | Raise _ => []
  end
  = [(0, ex_start); (2, ex_mid); (4, [1; BLANK_TILE; 3; 4; 2; 6; 7; 5; 8]);
     (4, [1; 2; 3; BLANK_TILE; 4; 6; 7; 5; 8]); (4, [1; 2; 3; 4; 6; BLANK_TILE; 7; 5; 8])].
Proof. by vm_compute. Qed.

(** ** Sums *)

Lemma sum_Z_app l1 l2 : sum_Z (l1 ++ l2) = sum_Z l1 + sum_Z l2.
Proof. unfold sum_Z. induction l1 as [|x l1 IH]; simpl; lia. Qed.

Lemma sum_Z_perm l1 l2 : l1 ≡ₚ l2 → sum_Z l1 = sum_Z l2.
Proof. unfold sum_Z. induction 1; simpl; lia. Qed.

(** ** Inversions: the comprehension of the source counts [inv_count] *)

Lemma bind_fmap_S {B} (f : nat → list B) (l : list nat) :
  (S <$> l) ≫= f = l ≫= (λ i, f (S i)).
Proof.
  induction l as [|x l IH]; [done|].
  rewrite fmap_cons, !bind_cons. by rewrite IH.
Qed.

Lemma bind_ext_list {A B} (f g : A → list B) (l : list A) :
  (∀ x, f x = g x) → l ≫= f = l ≫= g.
Proof.
  intros E. induction l as [|x l IH]; [done|].
  rewrite !bind_cons. by rewrite E, IH.
Qed.

Lemma bind_seq_nth {B} (f : Z → list B) (l : list Z) :
  seq 0 (length l) ≫= (λ j, f (nth j l 0)) = l ≫= f.
Proof.
  induction l as [|x l IH]; [done|].
  cbn [length seq]. rewrite <- fmap_S_seq, !bind_cons, bind_fmap_S.
  simpl. by rewrite IH.
Qed.

Lemma sum_bind_indicator (x : Z) (l : list Z) :
  sum_Z (l ≫= (λ y, if decide (x > y) then [1] else [])) = count_smaller x l.
Proof.
  unfold count_smaller.
  induction l as [|y l IH]; [done|].
  rewrite bind_cons, sum_Z_app, IH. simpl. by case_decide.
Qed.

Lemma inversions_inv_count l : inversions l = inv_count l.
Proof.
  unfold inversions. induction l as [|x l IH]; [done|].
  cbn [length seq inv_count]. rewrite bind_cons, sum_Z_app.
  f_equal.
  - replace (0 + 1)%nat with 1%nat by done.
    replace (S (length l) - 1)%nat with (length l) by lia.
    rewrite <- fmap_S_seq, bind_fmap_S. simpl.
    rewrite <- sum_bind_indicator. f_equal.
    exact (bind_seq_nth (λ y, if decide (x > y) then [1] else []) l).
  - rewrite <- fmap_S_seq, bind_fmap_S, <- IH. f_equal.
    apply bind_ext_list. intros i.
    replace (S i + 1)%nat with (S (i + 1)) by lia.
    replace (S (length l) - S (i + 1))%nat with (length l - (i + 1))%nat by lia.
    rewrite <- fmap_S_seq, bind_fmap_S. done.
Qed.

Lemma is_solvable_even tiles0 :
  is_solvable tiles0 = Z.even (inv_count (non_blank tiles0)).
Proof.
  unfold is_solvable, non_blank. rewrite inversions_inv_count.
  rewrite Zeven_mod. case_bool_decide as E.
  - symmetry. by apply Z.eqb_eq.
  - symmetry. by apply Z.eqb_neq.
Qed.

(** ** [index] *)

Lemma index_raises x l e : index x l = Raise e → e = ValueError.
Proof.
  revert e. induction l as [|y l IH]; intros e; simpl.
  - congruence.
  - case_decide; [congruence|].
    destruct (index x l) eqn:E; simpl; [congruence|].
    intros [= <-]. by apply IH.
Qed.

Lemma index_elem x l :
  x ∈ l →
  ∃ k, index x l = Ok (Z.of_nat k) ∧ l !! k = Some x ∧ ∀ j, (j < k)%nat → l !! j ≠ Some x.
Proof.
  induction l as [|y l IH]; intros Hin.
  - by apply elem_of_nil in Hin.
  - simpl. case_decide as E.
    + subst y. exists 0%nat. split_and!; [done|done|]. lia.
    + apply elem_of_cons in Hin as [->|Hin]; [done|].
      destruct (IH Hin) as (k & -> & Hk & Hlt). exists (S k). split_and!.
      * simpl. f_equal. lia.
      * done.
      * intros [|j] Hj; simpl; [congruence|]. apply Hlt. lia.
Qed.

Lemma index_Ok_elem x l k : index x l = Ok k → x ∈ l.
Proof.
  revert k. induction l as [|y l IH]; intros k; simpl; [done|].
  case_decide as E; [subst; intros _; apply elem_of_cons; by left|].
  destruct (index x l) eqn:E'; simpl; [|done].
  intros _. apply elem_of_cons. right. by eapply IH.
Qed.

Lemma index_not_elem x l : x ∉ l → index x l = Raise ValueError.
Proof.
  intros Hn. destruct (index x l) as [k|e] eqn:E.
  - by apply index_Ok_elem in E.
  - by rewrite (index_raises _ _ _ E).
Qed.

Lemma index_NoDup (l : list Z) (i : nat) x :
  NoDup l → l !! i = Some x → index x l = Ok (Z.of_nat i).
Proof.
  intros Hnd Hi.
  destruct (index_elem x l) as (k & Hk & Hlk & _).
  { by eapply list_elem_of_lookup_2. }
  rewrite Hk. do 2 f_equal. by eapply NoDup_lookup.
Qed.

(** ** [manhattan_distance] *)

Lemma manhattan_terms_raises i state goal e :
  manhattan_terms i state goal = Raise e → e = ValueError.
Proof.
  revert i. induction state as [|t rest IH]; intros i; simpl; [done|].
  case_decide; [|by apply IH].
  destruct (index t goal) eqn:E; simpl.
  - destruct (manhattan_terms (i + 1) rest goal) eqn:E'; simpl; [done|].
    intros [= <-]. by eapply IH.
  - intros [= <-]. by eapply index_raises.
Qed.

Lemma manhattan_distance_raises state goal e :
  manhattan_distance state goal = Raise e → e = ValueError.
Proof.
  unfold manhattan_distance.
  destruct (manhattan_terms 0 state goal) eqn:E; simpl; [done|].
  intros [= <-]. by eapply manhattan_terms_raises.
Qed.

Lemma manhattan_terms_missing i state goal t :
  t ∈ state → t ≠ BLANK_TILE → t ∉ goal →
  manhattan_terms i state goal = Raise ValueError.
Proof.
  intros Hin Hnb Hng. revert i.
  induction state as [|u rest IH]; intros i; [by apply elem_of_nil in Hin|].
  destruct (manhattan_terms i (u :: rest) goal) as [ts|e] eqn:E;
    [|by rewrite (manhattan_terms_raises _ _ _ _ E)].
  exfalso. simpl in E. apply elem_of_cons in Hin as [->|Hin].
  - rewrite decide_True, index_not_elem in E by done. done.
  - specialize (IH Hin (i + 1)). rewrite IH in E. case_decide; [|done].
    by destruct (index u goal).
Qed.

Lemma manhattan_terms_wsum i state goal :
  (∀ t, t ∈ state → t ≠ BLANK_TILE → t ∈ goal) →
  ∃ ts, manhattan_terms i state goal = Ok ts ∧ sum_Z ts = wsum goal i state.
Proof.
  revert i. induction state as [|t rest IH]; intros i Hsub; simpl.
  - by exists [].
  - destruct (IH (i + 1)) as (ts & Hts & Hsum).
    { intros u Hu. apply Hsub. apply elem_of_cons. by right. }
    unfold cost. destruct (decide (t = BLANK_TILE)) as [Hb|Hb].
    + rewrite decide_False by (by intros []).
      exists ts. split; [done|lia].
    + destruct (index_elem t goal) as (k & Hk & _).
      { apply Hsub; [apply elem_of_cons; by left|done]. }
      rewrite decide_True by done.
      unfold position. rewrite Hk, Hts. simpl. eexists; split; [done|].
      rewrite <- Hsum. reflexivity.
Qed.

Lemma manhattan_distance_hval state goal :
  (∀ t, t ∈ state → t ≠ BLANK_TILE → t ∈ goal) →
  manhattan_distance state goal = Ok (hval goal state).
Proof.
  intros Hsub. unfold manhattan_distance, hval.
  destruct (manhattan_terms_wsum 0 state goal Hsub) as (ts & -> & <-). done.
Qed.

Lemma cell_distance_nonneg i k : 0 ≤ cell_distance i k.
Proof. unfold cell_distance. lia. Qed.

Lemma cost_nonneg goal i t : 0 ≤ cost goal i t.
Proof. unfold cost. case_decide; [lia|apply cell_distance_nonneg]. Qed.

Lemma wsum_nonneg goal i state : 0 ≤ wsum goal i state.
Proof.
  revert i. induction state as [|t rest IH]; intros i; simpl; [lia|].
  pose proof (cost_nonneg goal i t). specialize (IH (i + 1)). lia.
Qed.

Lemma position_cons_eq t l : position (t :: l) t = 0.
Proof. unfold position. simpl. by rewrite decide_True. Qed.

Lemma position_cons_ne t u l :
  u ≠ t → u ∈ l → position (t :: l) u = 1 + position l u.
Proof.
  intros Hne Hin. unfold position. simpl. rewrite decide_False by done.
  destruct (index_elem u l Hin) as (k & -> & _). done.
Qed.

(** The sum over cells is a sum over the tiles, each at its own cell. *)
Lemma wsum_by_tile goal i l :
  NoDup l → wsum goal i l = sum_Z ((λ t, cost goal (i + position l t) t) <$> l).
Proof.
  revert i. induction l as [|t l IH]; intros i Hnd; [done|].
  apply NoDup_cons in Hnd as [Hnin Hnd].
  simpl. rewrite position_cons_eq, Z.add_0_r. unfold sum_Z in *. f_equal.
  rewrite (IH (i + 1) Hnd). f_equal.
  apply list_fmap_ext. intros k u Hu.
  assert (u ∈ l) by (by eapply list_elem_of_lookup_2).
  rewrite position_cons_ne by (done || congruence). f_equal. lia.
Qed.

Lemma valid_NoDup c : valid c → NoDup c.
Proof.
  unfold valid. intros ->. apply (bool_decide_unpack _). by vm_compute.
Qed.

Lemma valid_length c : valid c → length c = 9%nat.
Proof. unfold valid. by intros ->. Qed.

Lemma valid_elem c1 c2 t : valid c1 → valid c2 → t ∈ c1 → t ∈ c2.
Proof. unfold valid. by intros -> ->. Qed.

Lemma valid_blank c : valid c → BLANK_TILE ∈ c.
Proof. unfold valid. intros ->. unfold canonical. do 8 right. left. Qed.

Lemma hval_tilewise state goal :
  valid state → hval goal state = sum_Z (tile_distance state goal <$> tiles).
Proof.
  intros Hv. unfold hval. rewrite wsum_by_tile by (by apply valid_NoDup).
  rewrite (sum_Z_perm _ ((λ t, cost goal (0 + position state t) t) <$> canonical))
    by (by apply fmap_Permutation).
  unfold canonical, tiles. rewrite !fmap_cons, !fmap_nil.
  unfold sum_Z, cost, tile_distance. cbn [foldr].
  rewrite !decide_False by (by unfold BLANK_TILE). rewrite decide_True by done.
  rewrite !Z.add_0_l. lia.
Qed.

Lemma cell_distance_diag k : cell_distance k k = 0.
Proof. unfold cell_distance. lia. Qed.

Lemma hval_goal goal : valid goal → hval goal goal = 0.
Proof.
  intros Hv. rewrite hval_tilewise by done.
  unfold tiles, tile_distance. simpl. rewrite !cell_distance_diag. done.
Qed.

(** ** Fuel *)

Lemma reconstruct_mono fuel fuel' cf current path r :
  reconstruct fuel cf current path = Some r → (fuel ≤ fuel')%nat →
  reconstruct fuel' cf current path = Some r.
Proof.
  revert fuel' current path.
  induction fuel as [|fuel IH]; intros fuel' current path; simpl; [done|].
  intros Hr Hle. destruct fuel' as [|fuel']; [lia|]. simpl.
  destruct (cf !! current); [|done]. apply IH; [done|lia].
Qed.

Lemma search_mono fuel fuel' goal st r :
  search fuel goal st = Some r → (fuel ≤ fuel')%nat →
  search fuel' goal st = Some r.
Proof.
  revert fuel' st. induction fuel as [|fuel IH]; intros fuel' st; simpl; [done|].
  intros Hr Hle. destruct fuel' as [|fuel']; [lia|]. simpl.
  destruct (search_round goal st) as [c st1| |e|st2]; try done.
  - destruct (reconstruct fuel (came_from st1) c []) as [p|] eqn:E; [|done].
    by rewrite (reconstruct_mono _ fuel' _ _ _ _ E) by lia.
  - apply IH; [done|lia].
Qed.

Lemma a_star_solver_mono fuel fuel' initial goal r :
  a_star_solver fuel initial goal = Some r → (fuel ≤ fuel')%nat →
  a_star_solver fuel' initial goal = Some r.
Proof.
  unfold a_star_solver. destruct (manhattan_distance initial goal); [|done].
  apply search_mono.
Qed.

Lemma returns_intro fuel initial goal r :
  a_star_solver fuel initial goal = Some r → returns initial goal r.
Proof. intros H. exists fuel. intros fuel'. by apply a_star_solver_mono. Qed.

Lemma returns_unique initial goal r1 r2 :
  returns initial goal r1 → returns initial goal r2 → r1 = r2.
Proof.
  intros [f1 H1] [f2 H2].
  specialize (H1 (f1 `max` f2)%nat). specialize (H2 (f1 `max` f2)%nat).
  rewrite H1 in H2 by lia. assert (Some r1 = Some r2) as [= ->] by (apply H2; lia).
  done.
Qed.

(** ** Results on [is_solvable] and [manhattan_distance] *)

(** C10.  [is_solvable] reads only the row-major sequence of the non-blank
    identifiers: two configurations whose sequences agree get the same
    verdict, wherever their blanks are. *)
Theorem is_solvable_ignores_blank (c1 c2 : list Z) :
  non_blank c1 = non_blank c2 → is_solvable c1 = is_solvable c2.
Proof. intros E. rewrite !is_solvable_even. by rewrite E. Qed.

Lemma is_solvable_ignores_blank_witness :
  non_blank ex_goal = non_blank ex_mid ∧ is_solvable ex_goal = is_solvable ex_mid.
Proof.
  assert (non_blank ex_goal = non_blank ex_mid) as E by reflexivity.
  split; [exact E|exact (is_solvable_ignores_blank ex_goal ex_mid E)].
Defined.

(** C2, as the source has it.  [is_solvable] knows no grid width: it returns
    true exactly when the number of inversions among the non-blank tiles is
    even.  That is the rule of the specification for every odd width; and
    the configuration [2,1,3,4,5,6,7,8,blank] is rejected. *)
Theorem is_solvable_inversion_parity (n : Z) (c : list Z) :
  is_solvable c = Z.even (inv_count (non_blank c)) ∧
  (Z.odd n = true → is_solvable c = width_rule n c) ∧
  is_solvable ex_swapped = false.
Proof.
  split_and!.
  - apply is_solvable_even.
  - intros Hodd. unfold width_rule. rewrite Hodd. apply is_solvable_even.
  - reflexivity.
Qed.

Lemma is_solvable_inversion_parity_witness :
  Z.odd 3 = true ∧ is_solvable ex_start = width_rule 3 ex_start.
Proof.
  split; [reflexivity|].
  exact (proj1 (proj2 (is_solvable_inversion_parity 3 ex_start)) eq_refl).
Defined.

(** C2, as stated, fails on a grid of even width: for the 4x4 configuration
    that has the blank one row above its goal row and three inversions the
    width-dependent rule accepts, [is_solvable] rejects. *)
Lemma is_solvable_even_width_counterexample :
  width_rule 4 ex_fifteen = true ∧ is_solvable ex_fifteen = false.
Proof. split; reflexivity. Qed.

(** C9.  For valid configurations [manhattan_distance] returns the sum, over
    the tiles 1..8, of the grid distance between the tile's cell in [state]
    and its cell in [goal]; the distance from [goal] to itself is 0.  The
    function is a pure function of its two arguments. *)
Theorem manhattan_distance_by_tile (state goal : list Z) :
  valid state → valid goal →
  manhattan_distance state goal = Ok (sum_Z (tile_distance state goal <$> tiles)) ∧
  manhattan_distance goal goal = Ok 0.
Proof.
  intros Hs Hg. split.
  - rewrite manhattan_distance_hval
      by (intros t Ht _; by apply (valid_elem state goal)).
    by rewrite hval_tilewise.
  - rewrite manhattan_distance_hval by done. by rewrite hval_goal.
Qed.

Lemma valid_ex_start : valid ex_start.
Proof. apply (bool_decide_unpack _). by vm_compute. Qed.

Lemma valid_ex_goal : valid ex_goal.
Proof. apply (bool_decide_unpack _). by vm_compute. Qed.

Lemma manhattan_distance_by_tile_witness :
  valid ex_start ∧ valid ex_goal ∧
  manhattan_distance ex_start ex_goal
    = Ok (sum_Z (tile_distance ex_start ex_goal <$> tiles)) ∧
  manhattan_distance ex_goal ex_goal = Ok 0.
Proof.
  split; [exact valid_ex_start|]. split; [exact valid_ex_goal|].
  exact (manhattan_distance_by_tile ex_start ex_goal valid_ex_start valid_ex_goal).
Defined.

(** ** Runs of [a_star_solver] that need no search *)

Lemma manhattan_distance_self c : manhattan_distance c c = Ok (hval c c).
Proof. by apply manhattan_distance_hval. Qed.

(** C5.  With the goal as the start the solver returns the empty sequence:
    the first state taken from the queue is the goal, it has no predecessor
    link, and the walk along the links collects nothing. *)
Theorem a_star_solver_same (start : list Z) : returns start start (Ok []).
Proof.
  exists 2%nat. intros [|[|fuel]] Hle; [lia|lia|].
  unfold a_star_solver. rewrite manhattan_distance_self.
  cbn [search search_round initial_state pq_put pq_get open_set came_from].
  rewrite decide_True by done. cbn [reconstruct came_from].
  by rewrite lookup_empty.
Qed.

(** C3, as the source has it.  The solver does not validate its input and
    knows no error of its own.  A start that holds a non-blank identifier
    absent from the goal, or that differs from the goal and holds no blank,
    makes it raise the built-in [ValueError] of [list.index]. *)
Theorem a_star_solver_value_error (start goal : list Z) :
  missing_identifier start goal ∨ (start ≠ goal ∧ BLANK_TILE ∉ start) →
  returns start goal (Raise ValueError).
Proof.
  intros Hbad. exists 1%nat. intros [|fuel] Hle; [lia|].
  unfold a_star_solver.
  destruct (manhattan_distance start goal) as [h|e] eqn:Eh.
  - destruct Hbad as [(t & Hin & Hnb & Hng)|[Hne Hnoblank]].
    + unfold manhattan_distance in Eh.
      by rewrite (manhattan_terms_missing 0 start goal t) in Eh.
    + cbn [search search_round initial_state pq_put pq_get open_set].
      rewrite decide_False by done.
      unfold expand. by rewrite index_not_elem.
  - by rewrite (manhattan_distance_raises _ _ _ Eh).
Qed.

Lemma a_star_solver_value_error_witness :
  (missing_identifier [9; BLANK_TILE] [1; BLANK_TILE]
   ∨ ([9; BLANK_TILE] ≠ [1; BLANK_TILE] ∧ BLANK_TILE ∉ [9; BLANK_TILE])) ∧
  returns [9; BLANK_TILE] [1; BLANK_TILE] (Raise ValueError).
Proof.
  assert (missing_identifier [9; BLANK_TILE] [1; BLANK_TILE]) as H.
  { exists 9. split_and!; [by left|done|].
    intros Hin. by apply (bool_decide_pack _) in Hin. }
  split; [by left|].
  exact (a_star_solver_value_error [9; BLANK_TILE] [1; BLANK_TILE] (or_introl H)).
Defined.

(** C3, as stated, fails: a configuration of eight cells with a duplicated
    identifier, given as start and goal, is not rejected: the solver returns
    the empty sequence and raises nothing; and on a start of five cells the
    error raised is the built-in [IndexError]. *)
Lemma a_star_solver_accepts_malformed :
  returns ex_short ex_short (Ok []) ∧
  (¬ ∃ e, returns ex_short ex_short (Raise e)) ∧
  returns [1; 2; 3; 4; BLANK_TILE] [BLANK_TILE; 1; 2; 3; 4] (Raise IndexError).
Proof.
  assert (returns ex_short ex_short (Ok [])) as H by (by apply (returns_intro 2)).
  split_and!.
  - exact H.
  - intros [e He]. by pose proof (returns_unique _ _ _ _ H He).
  - by apply (returns_intro 1).
Qed.

(** ** Moves permute the configuration *)

Lemma insert_swap_head (l : list Z) (k : nat) (h b : Z) :
  l !! k = Some b → b :: <[k := h]> l ≡ₚ h :: l.
Proof.
  revert k. induction l as [|y l IH]; intros [|k] Hk; simplify_eq/=.
  - apply perm_swap.
  - rewrite (perm_swap y b), (IH k Hk). apply perm_swap.
Qed.

Lemma insert_swap_perm (s : list Z) (i j : nat) (a b : Z) :
  s !! i = Some a → s !! j = Some b → <[j := a]> (<[i := b]> s) ≡ₚ s.
Proof.
  revert i j. induction s as [|h s IH]; intros [|i] [|j] Hi Hj; simplify_eq/=.
  - done.
  - by apply insert_swap_head.
  - by apply insert_swap_head.
  - f_equiv. by apply IH.
Qed.

Lemma move_perm s t : move s t → t ≡ₚ s.
Proof.
  intros (i & j & x & Hi & Hj & _ & ->). by apply insert_swap_perm.
Qed.

Lemma move_valid s t : valid s → move s t → valid t.
Proof. unfold valid. intros Hs Hm. by rewrite (move_perm _ _ Hm). Qed.

Lemma route_valid s p t : valid s → route s p t → valid t.
Proof. intros Hs. induction 1; [done|]. by eapply move_valid. Qed.

(** ** Inversions under a move *)

Lemma count_smaller_cons x y l :
  count_smaller x (y :: l) = (if decide (x > y) then 1 else 0) + count_smaller x l.
Proof. done. Qed.

Lemma count_smaller_app x l1 l2 :
  count_smaller x (l1 ++ l2) = count_smaller x l1 + count_smaller x l2.
Proof. unfold count_smaller. by rewrite fmap_app, sum_Z_app. Qed.

Lemma count_smaller_perm x l1 l2 :
  l1 ≡ₚ l2 → count_smaller x l1 = count_smaller x l2.
Proof. intros Hp. unfold count_smaller. apply sum_Z_perm. by apply fmap_Permutation. Qed.

Lemma inv_count_prefix l r r' :
  r ≡ₚ r' → inv_count (l ++ r) - inv_count (l ++ r') = inv_count r - inv_count r'.
Proof.
  intros Hp. induction l as [|a l IH]; simpl; [done|].
  rewrite !count_smaller_app, (count_smaller_perm a r r' Hp). lia.
Qed.

(** A tile that passes over two others changes the count by -2, 0 or 2. *)
Lemma inv_count_jump x y t l :
  x ≠ t → y ≠ t →
  ∃ k, inv_count (x :: y :: t :: l) = inv_count (t :: x :: y :: l) + 2 * k.
Proof.
  intros Hx Hy. cbn [inv_count]. rewrite !count_smaller_cons.
  repeat case_decide; first [by exists 0; lia | by exists 1; lia | by exists (-1); lia | lia].
Qed.

Lemma jump_parity l1 x y t l2 :
  x ≠ t → y ≠ t →
  Z.even (inv_count (l1 ++ x :: y :: t :: l2))
  = Z.even (inv_count (l1 ++ t :: x :: y :: l2)).
Proof.
  intros Hx Hy. destruct (inv_count_jump x y t l2 Hx Hy) as [k Hk].
  assert (x :: y :: t :: l2 ≡ₚ t :: x :: y :: l2) as Hp.
  { by rewrite (Permutation_middle [x; y] l2 t). }
  pose proof (inv_count_prefix l1 _ _ Hp) as Hd.
  replace (inv_count (l1 ++ x :: y :: t :: l2))
    with (inv_count (l1 ++ t :: x :: y :: l2) + 2 * k) by lia.
  by rewrite Z.even_add_mul_2.
Qed.

Lemma cell_cases (i : nat) :
  0 ≤ Z.of_nat i < GRID_SIZE * GRID_SIZE →
  (i = 0 ∨ i = 1 ∨ i = 2 ∨ i = 3 ∨ i = 4 ∨ i = 5 ∨ i = 6 ∨ i = 7 ∨ i = 8)%nat.
Proof. unfold GRID_SIZE. lia. Qed.

Ltac solve_jump :=
  first [ refine (jump_parity [] _ _ _ _ _ _)
        | refine (jump_parity [_] _ _ _ _ _ _)
        | refine (jump_parity [_; _] _ _ _ _ _ _)
        | refine (jump_parity [_; _; _] _ _ _ _ _ _)
        | refine (jump_parity [_; _; _; _] _ _ _ _ _ _)
        | refine (jump_parity [_; _; _; _; _] _ _ _ _ _ _) ];
  congruence.

Lemma move_is_solvable s t : valid s → move s t → is_solvable t = is_solvable s.
Proof.
  intros Hv (i & j & x & Hi & Hj & Hadj & ->).
  pose proof (valid_NoDup _ Hv) as Hnd. pose proof (valid_length _ Hv) as Hlen.
  do 9 (destruct s as [|? s]; [done|]). destruct s; [|done]. clear Hlen Hv.
  rewrite !is_solvable_even.
  repeat (apply NoDup_cons in Hnd as [? Hnd]). clear Hnd.
  rewrite ?not_elem_of_cons in *.
  destruct Hadj as (Hi9 & Hj9 & Hadj).
  apply cell_cases in Hi9. apply cell_cases in Hj9.
  destruct Hi9 as [-> | [-> | [-> | [-> | [-> | [-> | [-> | [-> | ->]]]]]]]];
  destruct Hj9 as [-> | [-> | [-> | [-> | [-> | [-> | [-> | [-> | ->]]]]]]]];
  try (vm_compute in Hadj; discriminate).
  all: clear Hadj.
  all: injection Hi as ->; injection Hj as ->.
  all: cbn [list_insert insert]; destruct_and?; unfold non_blank.
  all: repeat first
         [ rewrite filter_cons_True by congruence
         | rewrite filter_cons_False by (by intros []) ];
       rewrite filter_nil.
  all: try reflexivity.
  all: first [ solve_jump | symmetry; solve_jump ].
Qed.

Lemma route_is_solvable s p t :
  valid s → route s p t → is_solvable t = is_solvable s.
Proof.
  intros Hv Hr. induction Hr as [|p y x Hr IH Hm]; [done|].
  rewrite <- IH. apply move_is_solvable; [|done]. by eapply route_valid.
Qed.

(** C8.  The verdict of [is_solvable] is an invariant of the move relation:
    a legal move leaves it unchanged, hence every configuration reached from
    a valid goal by legal moves gets the verdict of the goal. *)
Theorem is_solvable_invariant (goal c : list Z) (p : list (list Z)) :
  valid goal → route goal p c → is_solvable c = is_solvable goal.
Proof. apply route_is_solvable. Qed.

Lemma move_ex_goal_mid : move ex_goal ex_mid.
Proof.
  exists 8%nat, 7%nat, 8. split_and!; try reflexivity.
  unfold adjacent. by vm_compute.
Qed.

Lemma is_solvable_invariant_witness :
  valid ex_goal ∧ route ex_goal [ex_mid] ex_mid ∧
  is_solvable ex_mid = is_solvable ex_goal.
Proof.
  assert (route ex_goal [ex_mid] ex_mid) as Hr.
  { apply (route_snoc ex_goal [] ex_goal ex_mid); [constructor|exact move_ex_goal_mid]. }
  split; [exact valid_ex_goal|]. split; [exact Hr|].
  exact (is_solvable_invariant ex_goal ex_mid [ex_mid] valid_ex_goal Hr).
Defined.

(** ** The grid: directions and neighbouring cells *)

Lemma cell_cases_Z (b : Z) :
  0 ≤ b < GRID_SIZE * GRID_SIZE →
  b = 0 ∨ b = 1 ∨ b = 2 ∨ b = 3 ∨ b = 4 ∨ b = 5 ∨ b = 6 ∨ b = 7 ∨ b = 8.
Proof. unfold GRID_SIZE. lia. Qed.

Lemma target_adjacent b d j :
  0 ≤ b < GRID_SIZE * GRID_SIZE → d ∈ directions → target b d = Some j →
  adjacent b j.
Proof.
  intros Hb Hd Ht. apply cell_cases_Z in Hb.
  unfold directions in Hd. rewrite !elem_of_cons, elem_of_nil in Hd.
  destruct Hb as [-> | [-> | [-> | [-> | [-> | [-> | [-> | [-> | ->]]]]]]]];
  destruct Hd as [-> | [-> | [-> | [-> | []]]]];
  vm_compute in Ht; try discriminate; injection Ht as <-;
  unfold adjacent; vm_compute; intuition discriminate.
Qed.

Lemma adjacent_target b j :
  adjacent b j → ∃ d, d ∈ directions ∧ target b d = Some j.
Proof.
  intros (Hb & Hj & Hadj). apply cell_cases_Z in Hb. apply cell_cases_Z in Hj.
  destruct Hb as [-> | [-> | [-> | [-> | [-> | [-> | [-> | [-> | ->]]]]]]]];
  destruct Hj as [-> | [-> | [-> | [-> | [-> | [-> | [-> | [-> | ->]]]]]]]];
  try (vm_compute in Hadj; discriminate); clear Hadj;
  first [ exists (-1, 0); split; [by left|reflexivity]
        | exists (1, 0); split; [right; by left|reflexivity]
        | exists (0, -1); split; [do 2 right; by left|reflexivity]
        | exists (0, 1); split; [do 3 right; by left|reflexivity] ].
Qed.

(** ** Subscripts on a valid configuration *)

Lemma norm_index_ok (l : list Z) (i : Z) :
  0 ≤ i < Z.of_nat (length l) → norm_index l i = Ok (Z.to_nat i).
Proof.
  intros Hi. unfold norm_index.
  rewrite (decide_False (P := i < 0)) by lia. by rewrite decide_True.
Qed.

Lemma getitem_ok (l : list Z) (k : nat) x :
  l !! k = Some x → getitem l (Z.of_nat k) = Ok x.
Proof.
  intros Hk. unfold getitem. rewrite norm_index_ok.
  - simpl. by rewrite Nat2Z.id, Hk.
  - apply lookup_lt_Some in Hk. lia.
Qed.

Lemma setitem_ok (l : list Z) (k : nat) v :
  (k < length l)%nat → setitem l (Z.of_nat k) v = Ok (<[k := v]> l).
Proof.
  intros Hk. unfold setitem. rewrite norm_index_ok by lia.
  simpl. by rewrite Nat2Z.id.
Qed.

Lemma index_blank c :
  valid c →
  ∃ k : nat, index BLANK_TILE c = Ok (Z.of_nat k) ∧ c !! k = Some BLANK_TILE ∧
    0 ≤ Z.of_nat k < GRID_SIZE * GRID_SIZE.
Proof.
  intros Hv. destruct (index_elem BLANK_TILE c (valid_blank c Hv)) as (k & Hk & Hl & _).
  exists k. split_and!; try done; [lia|].
  apply lookup_lt_Some in Hl. rewrite (valid_length c Hv) in Hl.
  unfold GRID_SIZE. lia.
Qed.

(** ** One pass of the body of the [for] loop *)

Lemma relax_guarded goal c (k : nat) st d gc :
  valid goal → valid c → c !! k = Some BLANK_TILE →
  g_score st !! c = Some gc → d ∈ directions →
  match target (Z.of_nat k) d with
  | None =>
      relax goal c (Z.of_nat k) (Z.of_nat k `div` GRID_SIZE)
        (Z.of_nat k `mod` GRID_SIZE) st d = Ok st
  | Some j =>
      ∃ (jn : nat) (x : Z),
        j = Z.of_nat jn ∧ c !! jn = Some x ∧
        move c (<[jn := BLANK_TILE]> (<[k := x]> c)) ∧
        relax goal c (Z.of_nat k) (Z.of_nat k `div` GRID_SIZE)
          (Z.of_nat k `mod` GRID_SIZE) st d
        = Ok (if improves st (<[jn := BLANK_TILE]> (<[k := x]> c)) (gc + 1)
              then record_step goal c (<[jn := BLANK_TILE]> (<[k := x]> c)) (gc + 1) st
              else st)
  end.
Proof.
  intros Hgoal Hc Hk Hg Hd.
  assert (0 ≤ Z.of_nat k < GRID_SIZE * GRID_SIZE) as Hk9.
  { apply lookup_lt_Some in Hk. rewrite (valid_length c Hc) in Hk.
    unfold GRID_SIZE. lia. }
  destruct (target (Z.of_nat k) d) as [j|] eqn:Ht.
  - pose proof (target_adjacent _ _ _ Hk9 Hd Ht) as Hadj.
    pose proof Hadj as (_ & Hj9 & _).
    assert (Z.to_nat j < length c)%nat as Hjlen.
    { rewrite (valid_length c Hc). unfold GRID_SIZE in Hj9. lia. }
    destruct (lookup_lt_is_Some_2 c _ Hjlen) as [x Hx].
    exists (Z.to_nat j), x.
    assert (j = Z.of_nat (Z.to_nat j)) as Hjn by lia.
    set (t := <[Z.to_nat j := BLANK_TILE]> (<[k := x]> c)).
    assert (move c t) as Hm.
    { exists k, (Z.to_nat j), x. split_and!; try done.
      by rewrite Z2Nat.id by lia. }
    split_and!; try done.
    unfold target in Ht. unfold relax.
    case_decide as Hguard; [|done]. injection Ht as Ht.
    cbn zeta. rewrite Ht, Hjn, (getitem_ok c _ x Hx). cbn [res_bind].
    rewrite (getitem_ok c _ _ Hk). cbn [res_bind].
    rewrite setitem_ok by (by eapply lookup_lt_Some). cbn [res_bind].
    rewrite setitem_ok by (by rewrite length_insert). cbn [res_bind].
    fold t. rewrite Hg. cbn [res_bind]. unfold improves.
    rewrite (manhattan_distance_hval t goal).
    + by destruct (g_score st !! t) as [gn|]; [case_bool_decide|].
    + intros u Hu _. apply (valid_elem t goal); [|done..].
      by eapply move_valid.
  - unfold target in Ht. unfold relax. by case_decide.
Qed.

(** ** The priority queue *)

Lemma elem_of_pq_put (e x : entry) q : e ∈ pq_put x q ↔ e = x ∨ e ∈ q.
Proof.
  induction q as [|y q IH]; simpl.
  - rewrite list_elem_of_singleton, elem_of_nil. tauto.
  - destruct (entry_ltb y x); rewrite !elem_of_cons; [rewrite IH|]; tauto.
Qed.

Lemma length_pq_put (x : entry) q : length (pq_put x q) = S (length q).
Proof.
  induction q as [|y q IH]; simpl; [done|].
  destruct (entry_ltb y x); simpl; by rewrite ?IH.
Qed.

Lemma entry_ltb_true (a b : entry) : entry_ltb a b = true → a.1 ≤ b.1.
Proof. unfold entry_ltb. case_decide; [lia|]. intros ?%bool_decide_eq_true. lia. Qed.

Lemma entry_ltb_false (a b : entry) : entry_ltb a b = false → b.1 ≤ a.1.
Proof. unfold entry_ltb. case_decide; [lia|]. intros ?%bool_decide_eq_false. lia. Qed.

Lemma pq_put_sorted (x : entry) q :
  StronglySorted (λ a b : entry, a.1 ≤ b.1) q →
  StronglySorted (λ a b : entry, a.1 ≤ b.1) (pq_put x q).
Proof.
  induction 1 as [|y q Hs IH Hall]; simpl.
  - repeat constructor.
  - destruct (entry_ltb y x) eqn:E.
    + constructor; [done|]. apply Forall_forall. intros z Hz.
      apply elem_of_pq_put in Hz as [->|Hz]; [by apply entry_ltb_true|].
      by eapply Forall_forall in Hall.
    + apply entry_ltb_false in E. constructor; [by constructor|].
      constructor; [done|]. eapply Forall_impl; [done|]. simpl. lia.
Qed.

Lemma sorted_head_least (x : entry) q (e : entry) :
  StronglySorted (λ a b : entry, a.1 ≤ b.1) (x :: q) → e ∈ x :: q → x.1 ≤ e.1.
Proof.
  intros Hs He. apply StronglySorted_inv in Hs as [_ Hall].
  apply elem_of_cons in He as [->|He]; [done|]. by eapply Forall_forall in Hall.
Qed.

(** ** The sum of the scores *)

Lemma g_sum_insert_None (m : gmap (list Z) Z) k v :
  m !! k = None →
  map_fold (λ (_ : list Z) (g acc : Z), g + acc) 0 (<[k := v]> m)
  = v + map_fold (λ (_ : list Z) (g acc : Z), g + acc) 0 m.
Proof. intros Hk. apply map_fold_insert_L; [intros; lia|done]. Qed.

Lemma g_sum_insert_Some (m : gmap (list Z) Z) k v v0 :
  m !! k = Some v0 →
  map_fold (λ (_ : list Z) (g acc : Z), g + acc) 0 (<[k := v]> m)
  = map_fold (λ (_ : list Z) (g acc : Z), g + acc) 0 m - v0 + v.
Proof.
  intros Hk.
  rewrite (map_fold_delete_L _ _ k v0 m) by (intros; lia || done).
  rewrite <- (insert_delete_eq m k v).
  rewrite g_sum_insert_None by apply lookup_delete_eq. lia.
Qed.

Lemma g_sum_nonneg (m : gmap (list Z) Z) :
  (∀ k v, m !! k = Some v → 0 ≤ v) →
  0 ≤ map_fold (λ (_ : list Z) (g acc : Z), g + acc) 0 m.
Proof.
  induction m as [|k v m Hk IH] using map_ind; intros Hall.
  - by rewrite map_fold_empty.
  - rewrite g_sum_insert_None by done.
    assert (0 ≤ v) by (apply (Hall k); by rewrite lookup_insert_eq).
    assert (0 ≤ map_fold (λ (_ : list Z) (g acc : Z), g + acc) 0 m); [|lia].
    apply IH. intros k' v' Hk'. apply (Hall k').
    rewrite lookup_insert_ne; [done|]. intros ->. congruence.
Qed.

Lemma scored_bound start goal st :
  valid goal → Inv start st →
  (size (g_score st) ≤ size (list_to_set (permutations goal) : gset (list Z)))%nat.
Proof.
  intros Hgoal HI. rewrite <- (size_dom (D := gset (list Z))).
  apply subseteq_size. intros x Hx.
  apply elem_of_dom in Hx as [g Hg]. apply (inv_valid _ _ HI) in Hg as [Hv _].
  apply elem_of_list_to_set, permutations_Permutation.
  unfold valid in *. by rewrite Hv, Hgoal.
Qed.

(** ** Recording an improved score keeps the invariant *)

Lemma improves_true st t g :
  improves st t g = true →
  g_score st !! t = None ∨ ∃ gn, g_score st !! t = Some gn ∧ g < gn.
Proof.
  unfold improves. destruct (g_score st !! t) as [gn|]; [|by left].
  intros ?%bool_decide_eq_true. right. by exists gn.
Qed.

Lemma improves_false st t g :
  improves st t g = false → ∃ gn, g_score st !! t = Some gn ∧ gn ≤ g.
Proof.
  unfold improves. destruct (g_score st !! t) as [gn|]; [|done].
  intros ?%bool_decide_eq_false. exists gn. split; [done|lia].
Qed.

Lemma hval_nonneg goal c : 0 ≤ hval goal c.
Proof. apply wsum_nonneg. Qed.

Section record_step.
Context (start goal c t : list Z) (gc : Z) (st : search_state).
Hypothesis Hgoal : valid goal.
Hypothesis HI : Inv start st.
Hypothesis Hc : g_score st !! c = Some gc.
Hypothesis Hm : move c t.
Hypothesis Himp : improves st t (gc + 1) = true.

Local Abbreviation st' := (record_step goal c t (gc + 1) st).

Lemma record_step_fresh : t ≠ start ∧ t ≠ c ∧ valid t ∧ 0 ≤ gc.
Proof.
  destruct (inv_valid _ _ HI _ _ Hc) as [Hvc Hgc].
  apply improves_true in Himp as Hcases.
  split_and!; [| |by eapply move_valid|done].
  - intros ->. rewrite (inv_start _ _ HI) in Hcases.
    destruct Hcases as [|(gn & [= <-] & ?)]; [done|lia].
  - intros ->. rewrite Hc in Hcases.
    destruct Hcases as [|(gn & [= <-] & ?)]; [done|lia].
Qed.

Lemma record_step_score x g :
  g_score st !! x = Some g → ∃ g', g_score st' !! x = Some g' ∧ g' ≤ g.
Proof.
  intros Hx. cbn [record_step g_score].
  destruct (decide (x = t)) as [->|Hne].
  - rewrite lookup_insert_eq. eexists; split; [done|].
    apply improves_true in Himp as [Hn|(gn & Hn & ?)]; [congruence|].
    assert (gn = g) by congruence. lia.
  - rewrite lookup_insert_ne by done. exists g. split; [done|lia].
Qed.

Lemma record_step_Inv : Inv start st'.
Proof.
  destruct record_step_fresh as (Hts & Htc & Hvt & Hgc).
  split.
  - intros x g. cbn [record_step g_score].
    destruct (decide (x = t)) as [->|Hne].
    + rewrite lookup_insert_eq. intros [= <-]. split; [done|lia].
    + rewrite lookup_insert_ne by done. apply (inv_valid _ _ HI).
  - cbn [record_step g_score].
    rewrite lookup_insert_ne by done. apply (inv_start _ _ HI).
  - intros x y. cbn [record_step g_score came_from].
    destruct (decide (x = t)) as [->|Hne].
    + rewrite !lookup_insert_eq. intros [= <-]. split; [done|].
      exists gc, (gc + 1). rewrite lookup_insert_ne by done. split_and!; [done|done|lia].
    + rewrite (lookup_insert_ne _ t x) by done. intros Hxy.
      destruct (inv_link _ _ HI _ _ Hxy) as (Hmove & gy & gx & Hy & Hx & Hle).
      split; [done|].
      destruct (record_step_score y gy Hy) as (gy' & Hy' & Hle').
      exists gy', gx.
      split_and!; [exact Hy'|by rewrite lookup_insert_ne|lia].
  - intros x g. cbn [record_step g_score came_from].
    destruct (decide (x = t)) as [->|Hne].
    + intros _ _. rewrite lookup_insert_eq. by eexists.
    + rewrite !lookup_insert_ne by done. apply (inv_linked _ _ HI).
  - intros p x. cbn [record_step g_score open_set].
    rewrite elem_of_pq_put. intros [[= -> ->]|Hin].
    + rewrite lookup_insert_eq. eexists; split; [done|].
      pose proof (hval_nonneg goal t). lia.
    + destruct (inv_open _ _ HI _ _ Hin) as (g & Hg & Hle).
      destruct (record_step_score x g Hg) as (g' & Hg' & Hle').
      exists g'. split; [done|lia].
  - cbn [record_step open_set]. apply pq_put_sorted, (inv_sorted _ _ HI).
Qed.

Lemma record_step_extends : extends goal st st'.
Proof.
  split.
  - apply record_step_score.
  - intros e He. cbn [record_step open_set].
    apply elem_of_pq_put. by right.
  - intros x g'. cbn [record_step g_score open_set].
    destruct (decide (x = t)) as [->|Hne].
    + rewrite lookup_insert_eq. intros [= <-]. right.
      apply elem_of_pq_put. by left.
    + rewrite lookup_insert_ne by done. by left.
Qed.

Lemma record_step_lex : lex_le goal st' st.
Proof.
  pose proof (scored_bound start goal st' Hgoal record_step_Inv) as Hbound.
  destruct record_step_fresh as (Hts & Htc & Hvt & Hgc).
  unfold lex_le, unseen, work, g_total in *.
  cbn [record_step g_score open_set] in *.
  rewrite length_pq_put.
  apply improves_true in Himp as [Hn|(gn & Hn & Hlt)].
  - left. rewrite map_size_insert_None in * by done. lia.
  - right. rewrite map_size_insert_Some by (by eexists). split; [done|].
    rewrite (g_sum_insert_Some _ _ _ gn) by done.
    pose proof (g_sum_nonneg (<[t := gc + 1]> (g_score st))) as Hnn.
    rewrite (g_sum_insert_Some _ _ _ gn) in Hnn by done.
    assert (0 ≤ map_fold (λ (_ : list Z) (g acc : Z), g + acc) 0 (g_score st) - gn + (gc + 1)).
    { apply Hnn. intros k v. destruct (decide (k = t)) as [->|Hne].
      - rewrite lookup_insert_eq. intros [= <-]. lia.
      - rewrite lookup_insert_ne by done. intros Hk.
        by apply (inv_valid _ _ HI) in Hk as [_ ?]. }
    lia.
Qed.

Lemma record_step_hit : g_score st' !! t = Some (gc + 1).
Proof. cbn [record_step g_score]. by rewrite lookup_insert_eq. Qed.
End record_step.

(** ** The [for] loop over the four directions *)

Lemma extends_refl goal st : extends goal st st.
Proof.
  split.
  - intros x g Hx. exists g. split; [done|lia].
  - done.
  - intros x g' Hx. by left.
Qed.

Lemma extends_trans goal st1 st2 st3 :
  extends goal st1 st2 → extends goal st2 st3 → extends goal st1 st3.
Proof.
  intros H12 H23. split.
  - intros x g Hx.
    destruct (ext_g _ _ _ H12 _ _ Hx) as (g2 & Hx2 & Hle2).
    destruct (ext_g _ _ _ H23 _ _ Hx2) as (g3 & Hx3 & Hle3).
    exists g3. split; [done|lia].
  - intros e He. by apply (ext_open _ _ _ H23), (ext_open _ _ _ H12).
  - intros x g' Hx.
    destruct (ext_new _ _ _ H23 _ _ Hx) as [Hx2|Hin]; [|by right].
    destruct (ext_new _ _ _ H12 _ _ Hx2) as [Hx1|Hin]; [by left|].
    right. by apply (ext_open _ _ _ H23).
Qed.

Lemma lex_le_refl goal st : lex_le goal st st.
Proof. right. split; [done|lia]. Qed.

Lemma lex_le_trans goal st1 st2 st3 :
  lex_le goal st3 st2 → lex_le goal st2 st1 → lex_le goal st3 st1.
Proof. unfold lex_le. lia. Qed.

Lemma for_each_spec {A S : Type} (body : S → A → res S)
    (P : S → Prop) (R : S → S → Prop) (Hit : A → S → Prop) (l : list A) :
  (∀ s, R s s) →
  (∀ s1 s2 s3, R s1 s2 → R s2 s3 → R s1 s3) →
  (∀ x s s', Hit x s → R s s' → Hit x s') →
  (∀ s x, P s → x ∈ l → ∃ s', body s x = Ok s' ∧ P s' ∧ R s s' ∧ Hit x s') →
  ∀ s, P s →
    ∃ s', for_each body s l = Ok s' ∧ P s' ∧ R s s' ∧ ∀ x, x ∈ l → Hit x s'.
Proof.
  intros Hrefl Htrans Hstable. induction l as [|x l IH]; intros Hbody s Hs.
  - exists s. split_and!; [done|done|done|]. intros x Hx. by apply elem_of_nil in Hx.
  - destruct (Hbody s x Hs) as (s1 & Hb & Hs1 & HR1 & Hhit); [by left|].
    destruct (IH (λ s0 y Hs0 Hy, Hbody s0 y Hs0 (list_elem_of_further _ _ _ Hy)) s1 Hs1)
      as (s2 & Hf & Hs2 & HR2 & Hhits).
    exists s2. simpl. rewrite Hb. simpl. split_and!; [done|done|by eapply Htrans|].
    intros y [->|Hy]%elem_of_cons; [by eapply Hstable|by apply Hhits].
Qed.

Section expand.
Context (start goal c : list Z) (k : nat) (gc : Z).
Hypothesis Hgoal : valid goal.
Hypothesis Hvc : valid c.
Hypothesis Hk : c !! k = Some BLANK_TILE.

(** The loop invariant, the relation between states and what the pass
    for direction [d] achieves. *)
Local Abbreviation P := (λ st : search_state,
  Inv start st ∧ ∃ gc', g_score st !! c = Some gc' ∧ gc' ≤ gc).
Local Abbreviation R := (λ st st' : search_state,
  extends goal st st' ∧ lex_le goal st' st).
Local Abbreviation Hit := (λ (d : Z * Z) (st : search_state),
  ∀ (j : nat) x, target (Z.of_nat k) d = Some (Z.of_nat j) → c !! j = Some x →
    ∃ gt, g_score st !! <[j := BLANK_TILE]> (<[k := x]> c) = Some gt ∧ gt ≤ gc + 1).

Lemma relax_spec st d :
  P st → d ∈ directions →
  ∃ st', relax goal c (Z.of_nat k) (Z.of_nat k `div` GRID_SIZE)
           (Z.of_nat k `mod` GRID_SIZE) st d = Ok st'
         ∧ P st' ∧ R st st' ∧ Hit d st'.
Proof.
  intros [HI (gc' & Hc & Hle)] Hd.
  pose proof (relax_guarded goal c k st d gc' Hgoal Hvc Hk Hc Hd) as Hrel.
  destruct (target (Z.of_nat k) d) as [j|] eqn:Ht.
  - destruct Hrel as (jn & x & -> & Hx & Hm & Hrel).
    destruct (improves st _ (gc' + 1)) eqn:Himp.
    + eexists. split; [exact Hrel|].
      assert (Inv start (record_step goal c (<[jn:=BLANK_TILE]> (<[k:=x]> c)) (gc' + 1) st))
        as HI' by (by eapply record_step_Inv).
      assert (extends goal st (record_step goal c (<[jn:=BLANK_TILE]> (<[k:=x]> c)) (gc' + 1) st))
        as Hext by (by eapply record_step_extends).
      split_and!.
      * done.
      * destruct (ext_g _ _ _ Hext _ _ Hc) as (g' & Hg' & Hle').
        exists g'. split; [done|lia].
      * done.
      * by eapply record_step_lex.
      * intros j x' [= Hj%Nat2Z.inj] Hx'. subst j.
        assert (x' = x) as -> by congruence.
        exists (gc' + 1). split; [apply record_step_hit|lia].
    + exists st. split; [exact Hrel|]. split_and!.
      * done.
      * by exists gc'.
      * apply extends_refl.
      * apply lex_le_refl.
      * intros j x' [= Hj%Nat2Z.inj] Hx'. subst j.
        assert (x' = x) as -> by congruence.
        apply improves_false in Himp as (gn & Hn & Hle').
        exists gn. split; [done|lia].
  - exists st. split; [exact Hrel|]. split_and!.
    + done.
    + by exists gc'.
    + apply extends_refl.
    + apply lex_le_refl.
    + intros j x' [=].
Qed.

Lemma expand_spec st :
  Inv start st → g_score st !! c = Some gc →
  ∃ st', expand goal c st = Ok st' ∧ Inv start st' ∧ extends goal st st'
         ∧ lex_le goal st' st
         ∧ ∀ t, move c t → ∃ gt, g_score st' !! t = Some gt ∧ gt ≤ gc + 1.
Proof.
  intros HI Hc.
  destruct (for_each_spec
    (relax goal c (Z.of_nat k) (Z.of_nat k `div` GRID_SIZE) (Z.of_nat k `mod` GRID_SIZE))
    P R Hit directions) with (s := st)
    as (st' & Hf & [HI' _] & [Hext Hlex] & Hhits).
  - intros s. split; [apply extends_refl|apply lex_le_refl].
  - intros s1 s2 s3 [? ?] [? ?].
    split; [by eapply extends_trans|by eapply lex_le_trans].
  - intros d s s' Hhit [Hext _] j x Ht Hx.
    destruct (Hhit j x Ht Hx) as (gt & Hgt & Hle).
    destruct (ext_g _ _ _ Hext _ _ Hgt) as (gt' & Hgt' & Hle').
    exists gt'. split; [done|lia].
  - intros s d Hs Hd. by apply relax_spec.
  - split; [done|]. exists gc. split; [done|lia].
  - exists st'. split_and!; try done.
    + unfold expand. rewrite (index_NoDup c k BLANK_TILE) by (by apply valid_NoDup || done).
      done.
    + intros t (i & j & x & Hi & Hj & Hadj & ->).
      assert (i = k) as -> by (eapply NoDup_lookup; [by apply valid_NoDup|done..]).
      destruct (adjacent_target _ _ Hadj) as (d & Hd & Ht).
      by apply (Hhits d Hd j x).
Qed.
End expand.

(** ** Walks *)

Lemma lookup_cons_snoc (s x : list Z) (p : list (list Z)) :
  (s :: p ++ [x]) !! S (length p) = Some x.
Proof. change ((p ++ [x]) !! length p = Some x). by apply list_lookup_middle. Qed.

Lemma route_lookup_last s p t : route s p t → (s :: p) !! length p = Some t.
Proof.
  induction 1 as [|p y x Hr IH Hm]; [done|].
  rewrite length_app, Nat.add_1_r. apply lookup_cons_snoc.
Qed.

Lemma route_lookup_move s p t (j : nat) a b :
  route s p t → (s :: p) !! j = Some a → p !! j = Some b → move a b.
Proof.
  intros Hr. revert j a b. induction Hr as [|p y x Hr IH Hm]; intros j a b Ha Hb.
  - by rewrite lookup_nil in Hb.
  - destruct (decide (j < length p)%nat) as [Hlt|Hge].
    + rewrite lookup_app_l in Hb by done.
      rewrite app_comm_cons, lookup_app_l in Ha by (simpl; lia). by eapply IH.
    + assert (j = length p) as ->.
      { apply lookup_lt_Some in Hb. rewrite length_app in Hb. simpl in Hb. lia. }
      rewrite list_lookup_middle in Hb by done. injection Hb as <-.
      rewrite app_comm_cons, lookup_app_l in Ha by (simpl; lia).
      rewrite (route_lookup_last _ _ _ Hr) in Ha. by injection Ha as <-.
Qed.

(** A configuration on the walk that is not its end has a successor. *)
Lemma route_next s p t (j : nat) a :
  route s p t → (s :: p) !! j = Some a → a ≠ t → ∃ b, p !! j = Some b.
Proof.
  intros Hr Ha Hne. apply lookup_lt_is_Some_2.
  destruct (decide (j < length p)%nat) as [|Hge]; [done|].
  assert (j = length p) as ->.
  { apply lookup_lt_Some in Ha. simpl in Ha. lia. }
  rewrite (route_lookup_last _ _ _ Hr) in Ha. congruence.
Qed.

(** ** The heuristic is consistent and admissible *)

Lemma wsum_insert goal (i : Z) (l : list Z) (k : nat) u v :
  l !! k = Some u →
  wsum goal i (<[k := v]> l)
  = wsum goal i l - cost goal (i + Z.of_nat k) u + cost goal (i + Z.of_nat k) v.
Proof.
  revert i k. induction l as [|h l IH]; intros i [|k] Hk; simplify_eq/=.
  - rewrite Z.add_0_r. lia.
  - rewrite (IH (i + 1) k Hk).
    replace (i + 1 + Z.of_nat k) with (i + Z.of_nat (S k)) by lia. lia.
Qed.

Lemma cost_adjacent goal (i j : Z) x :
  adjacent i j → cost goal j x ≤ cost goal i x + 1.
Proof.
  intros (_ & _ & Hadj). unfold cost. case_decide; [lia|].
  unfold cell_distance. lia.
Qed.

Lemma adjacent_ne i j : adjacent i j → i ≠ j.
Proof. intros (_ & _ & Hadj) ->. lia. Qed.

Lemma hval_move goal a b : move a b → hval goal a ≤ hval goal b + 1.
Proof.
  intros (i & j & x & Hi & Hj & Hadj & ->). unfold hval.
  assert (i ≠ j) as Hne by (intros ->; by apply adjacent_ne in Hadj).
  rewrite (wsum_insert goal 0 _ j x) by (by rewrite list_lookup_insert_ne).
  rewrite (wsum_insert goal 0 _ i BLANK_TILE) by done.
  pose proof (cost_adjacent goal _ _ x Hadj).
  unfold cost at 1 4. rewrite !decide_True by done. rewrite !Z.add_0_l. lia.
Qed.

Lemma hval_route goal s p t (j : nat) a :
  route s p t → (s :: p) !! j = Some a →
  hval goal a ≤ hval goal t + (Z.of_nat (length p) - Z.of_nat j).
Proof.
  intros Hr. revert j a. induction Hr as [|p y x Hr IH Hm]; intros j a Ha.
  - destruct j; simplify_eq/=; lia.
  - pose proof (hval_move goal _ _ Hm) as Hstep.
    rewrite length_app. simpl.
    destruct (decide (j ≤ length p)%nat) as [Hle|Hgt].
    + rewrite app_comm_cons, lookup_app_l in Ha by (simpl; lia).
      specialize (IH j a Ha). lia.
    + assert (j = S (length p)) as ->.
      { apply lookup_lt_Some in Ha. simpl in Ha. rewrite length_app in Ha.
        simpl in Ha. lia. }
      rewrite lookup_cons_snoc in Ha. injection Ha as <-. lia.
Qed.

(** ** The walk along the predecessor links *)

Lemma start_unlinked start st : Inv start st → came_from st !! start = None.
Proof.
  intros HI. destruct (came_from st !! start) as [y|] eqn:E; [|done].
  destruct (inv_link _ _ HI _ _ E) as (_ & gy & gx & Hy & Hx & Hle).
  rewrite (inv_start _ _ HI) in Hx. injection Hx as <-.
  apply (inv_valid _ _ HI) in Hy as [_ ?]. lia.
Qed.

Lemma reconstruct_route start st :
  Inv start st →
  ∀ (n : nat) x g acc,
    g_score st !! x = Some g → g ≤ Z.of_nat n →
    ∃ p, (∀ fuel, (n < fuel)%nat →
            reconstruct fuel (came_from st) x acc = Some (p ++ reverse acc))
         ∧ route start p x ∧ Z.of_nat (length p) ≤ g ∧ start ∉ p.
Proof.
  intros HI. induction n as [|n IH]; intros x g acc Hx Hle.
  - assert (x = start) as ->.
    { destruct (decide (x = start)) as [|Hne]; [done|exfalso].
      destruct (inv_linked _ _ HI _ _ Hx Hne) as [y Hy].
      destruct (inv_link _ _ HI _ _ Hy) as (_ & gy & gx & Hgy & Hgx & Hle').
      apply (inv_valid _ _ HI) in Hgy as [_ ?].
      assert (gx = g) by congruence. lia. }
    exists []. split_and!.
    + intros [|fuel] Hf; [lia|]. simpl. by rewrite (start_unlinked _ _ HI).
    + constructor.
    + rewrite (inv_start _ _ HI) in Hx. injection Hx as <-. simpl. lia.
    + apply not_elem_of_nil.
  - destruct (decide (x = start)) as [->|Hne].
    + exists []. split_and!.
      * intros [|fuel] Hf; [lia|]. simpl. by rewrite (start_unlinked _ _ HI).
      * constructor.
      * rewrite (inv_start _ _ HI) in Hx. injection Hx as <-. simpl. lia.
      * apply not_elem_of_nil.
    + destruct (inv_linked _ _ HI _ _ Hx Hne) as [y Hy].
      destruct (inv_link _ _ HI _ _ Hy) as (Hm & gy & gx & Hgy & Hgx & Hle').
      assert (gx = g) as -> by congruence.
      destruct (IH y gy (acc ++ [x]) Hgy) as (p & Hrec & Hr & Hlen & Hnot); [lia|].
      exists (p ++ [x]). split_and!.
      * intros [|fuel] Hf; [lia|]. simpl. rewrite Hy, Hrec by lia.
        by rewrite reverse_app, <- app_assoc.
      * by econstructor.
      * rewrite length_app. simpl. lia.
      * rewrite elem_of_app, list_elem_of_singleton. intros [?|?]; congruence.
Qed.

(** ** The queue keeps a configuration of every walk to the goal *)

Lemma Inv_popped start st e rest :
  Inv start st → open_set st = e :: rest → Inv start (popped rest st).
Proof.
  intros HI Hopen. split; cbn [popped g_score came_from open_set].
  - apply (inv_valid _ _ HI).
  - apply (inv_start _ _ HI).
  - apply (inv_link _ _ HI).
  - apply (inv_linked _ _ HI).
  - intros p x Hin. apply (inv_open _ _ HI). rewrite Hopen. by right.
  - pose proof (inv_sorted _ _ HI) as Hs. rewrite Hopen in Hs.
    by apply StronglySorted_inv in Hs as [? _].
Qed.

Lemma frontier_entry goal ns st :
  frontier_ok goal ns st →
  ∀ (d j : nat) a g,
    (length ns ≤ j + d)%nat →
    ns !! j = Some a → g_score st !! a = Some g → g ≤ Z.of_nat j →
    ∃ (j' : nat) a' p,
      ns !! j' = Some a' ∧ (p, a') ∈ open_set st ∧ p ≤ Z.of_nat j' + hval goal a'.
Proof.
  intros Hf. induction d as [|d IH]; intros j a g Hlen Hj Ha Hle.
  - apply lookup_lt_Some in Hj. lia.
  - destruct (Hf j a g Hj Ha Hle) as [(p & Hin & Hp)|(b & g' & Hb & Hgb & Hle')].
    + by exists j, a, p.
    + apply (IH (S j) b g'); [lia|done|done|done].
Qed.

Lemma frontier_step start goal st p c rest st2 gc q :
  valid goal → Inv start st → open_set st = (p, c) :: rest → c ≠ goal →
  g_score st !! c = Some gc →
  extends goal (popped rest st) st2 →
  (∀ t, move c t → ∃ gt, g_score st2 !! t = Some gt ∧ gt ≤ gc + 1) →
  route start q goal →
  frontier_ok goal (start :: q) st → frontier_ok goal (start :: q) st2.
Proof.
  intros Hgoal HI Hopen Hne Hc Hext Hnb Hq Hf j a g' Hj Ha Hle.
  destruct (ext_new _ _ _ Hext _ _ Ha) as [Hold|Hin].
  - cbn [popped g_score] in Hold.
    destruct (Hf j a g' Hj Hold Hle) as [(p' & Hin & Hp)|(b & gb & Hb & Hgb & Hle')].
    + rewrite Hopen in Hin. apply elem_of_cons in Hin as [[= -> ->]|Hin].
      * right. destruct (route_next _ _ _ _ _ Hq Hj Hne) as [b Hb].
        pose proof (route_lookup_move _ _ _ _ _ _ Hq Hj Hb) as Hm.
        destruct (Hnb b Hm) as (gt & Hgt & Hle').
        exists b, gt. split_and!; [done|done|].
        assert (gc = g') by congruence. lia.
      * left. exists p'. split; [|done]. by apply (ext_open _ _ _ Hext).
    + right. destruct (ext_g _ _ _ Hext _ _ Hgb) as (gb' & Hgb' & Hle'').
      exists b, gb'. split_and!; [done|done|lia].
  - left. exists (g' + hval goal a). split; [done|lia].
Qed.

Lemma frontier_bound start goal st p rest q :
  valid goal → Inv start st → open_set st = (p, goal) :: rest →
  route start q goal → frontier_ok goal (start :: q) st →
  p ≤ Z.of_nat (length q).
Proof.
  intros Hgoal HI Hopen Hq Hf.
  destruct (frontier_entry goal _ st Hf (S (length q)) 0 start 0)
    as (j' & a' & p' & Hj' & Hin & Hp'); [simpl; lia|done|apply (inv_start _ _ HI)|done|].
  pose proof (hval_route goal _ _ _ _ _ Hq Hj') as Hadm.
  rewrite (hval_goal goal Hgoal) in Hadm.
  pose proof (inv_sorted _ _ HI) as Hs. rewrite Hopen in Hs, Hin.
  pose proof (sorted_head_least _ _ _ Hs Hin) as Hleast. simpl in Hleast. lia.
Qed.

(** ** The [while] loop ends, with a shortest walk when there is one *)

Lemma lex_lt_pop goal st e rest st2 :
  open_set st = e :: rest → lex_le goal st2 (popped rest st) → lex_lt goal st2 st.
Proof.
  unfold lex_le, lex_lt, unseen, work, g_total. cbn [popped g_score open_set].
  intros ->. simpl. lia.
Qed.

Lemma search_total start goal :
  valid goal →
  ∀ (n m : nat) st, unseen goal st = n → work st = m → Inv start st →
    ∃ r, (∃ fuel, ∀ fuel', (fuel ≤ fuel')%nat → search fuel' goal st = Some (Ok r))
         ∧ (start ∉ r) ∧ (r = [] ∨ route start r goal)
         ∧ ∀ q, route start q goal → frontier_ok goal (start :: q) st →
              route start r goal ∧ (length r ≤ length q)%nat.
Proof.
  intros Hgoal n. induction n as [n IHn] using lt_wf_ind.
  intros m. induction m as [m IHm] using lt_wf_ind.
  intros st Hn Hm HI.
  destruct (open_set st) as [|[p c] rest] eqn:Hopen.
  - exists []. split_and!.
    + exists 1%nat. intros [|f] Hf; [lia|]. simpl. unfold search_round.
      by rewrite Hopen.
    + apply not_elem_of_nil.
    + by left.
    + intros q Hq Hf. exfalso.
      destruct (frontier_entry goal _ st Hf (S (length q)) 0 start 0)
        as (j' & a' & p' & _ & Hin & _);
        [simpl; lia|done|apply (inv_start _ _ HI)|done|].
      rewrite Hopen in Hin. by apply elem_of_nil in Hin.
  - destruct (inv_open _ _ HI p c) as (gc & Hc & Hgp); [rewrite Hopen; by left|].
    destruct (decide (c = goal)) as [->|Hne].
    + destruct (reconstruct_route start st HI (Z.to_nat gc) goal gc [] Hc)
        as (pth & Hrec & Hr & Hlen & Hnot).
      { apply (inv_valid _ _ HI) in Hc as [_ ?]. lia. }
      exists pth. split_and!.
      * exists (S (S (Z.to_nat gc))). intros [|f] Hf; [lia|]. simpl.
        unfold search_round. rewrite Hopen. cbn [pq_get].
        rewrite decide_True by done. cbn [came_from].
        rewrite Hrec by lia. by rewrite app_nil_r.
      * done.
      * by right.
      * intros q Hq Hf. split; [done|].
        pose proof (frontier_bound start goal st p rest q Hgoal HI Hopen Hq Hf). lia.
    + destruct (inv_valid _ _ HI _ _ Hc) as [Hvc _].
      destruct (index_blank c Hvc) as (k & _ & Hk & _).
      destruct (expand_spec start goal c k gc Hgoal Hvc Hk (popped rest st))
        as (st2 & Hexp & HI2 & Hext & Hlex & Hnb);
        [by eapply Inv_popped|done|].
      assert (search_round goal st = Continue st2) as Hround.
      { unfold search_round. rewrite Hopen. cbn [pq_get].
        rewrite decide_False by done. fold (popped rest st). by rewrite Hexp. }
      assert (∃ r, (∃ fuel, ∀ fuel', (fuel ≤ fuel')%nat →
                      search fuel' goal st2 = Some (Ok r))
                   ∧ (start ∉ r) ∧ (r = [] ∨ route start r goal)
                   ∧ ∀ q, route start q goal → frontier_ok goal (start :: q) st2 →
                        route start r goal ∧ (length r ≤ length q)%nat)
        as (r & [fuel Hfuel] & Hnot & Hr & Hopt).
      { destruct (lex_lt_pop goal st _ rest st2 Hopen Hlex) as [Hlt|[Heq Hlt]].
        - apply (IHn (unseen goal st2)) with (m := work st2); [lia|done..].
        - apply (IHm (work st2)); [lia|congruence|done|done]. }
      exists r. split_and!.
      * exists (S fuel). intros [|f] Hf; [lia|]. simpl. rewrite Hround.
        apply Hfuel. lia.
      * done.
      * done.
      * intros q Hq Hf. apply Hopt; [done|].
        by eapply (frontier_step start goal st p c rest st2 gc q).
Qed.

Lemma Inv_initial start h : valid start → Inv start (initial_state start h).
Proof.
  intros Hs. split; cbn [initial_state g_score came_from open_set pq_put].
  - intros x g [<- <-]%lookup_singleton_Some. split; [done|lia].
  - apply lookup_singleton_eq.
  - intros x y. by rewrite lookup_empty.
  - intros x g [<- _]%lookup_singleton_Some. done.
  - intros p x [= -> ->]%list_elem_of_singleton. exists 0.
    split; [apply lookup_singleton_eq|lia].
  - repeat constructor.
Qed.

Lemma frontier_initial start goal h ns :
  frontier_ok goal ns (initial_state start h).
Proof.
  intros j a g Hj Ha Hle. cbn [initial_state g_score open_set pq_put] in *.
  apply lookup_singleton_Some in Ha as [<- <-].
  left. exists 0. split; [by apply list_elem_of_singleton|].
  pose proof (hval_nonneg goal start). lia.
Qed.

(** Every call on valid configurations returns; what it returns is empty or
    a walk of legal moves from the start to the goal, and no walk to the
    goal is shorter. *)
Lemma a_star_solver_total start goal :
  valid start → valid goal →
  ∃ path, returns start goal (Ok path) ∧ (start ∉ path)
          ∧ (path = [] ∨ route start path goal)
          ∧ ∀ q, route start q goal →
               route start path goal ∧ (length path ≤ length q)%nat.
Proof.
  intros Hs Hg.
  destruct (search_total start goal Hg _ _ (initial_state start (hval goal start))
              eq_refl eq_refl (Inv_initial start _ Hs))
    as (r & [fuel Hfuel] & Hnot & Hr & Hopt).
  exists r. split_and!; [|done|done|].
  - exists fuel. intros fuel' Hf. unfold a_star_solver.
    rewrite manhattan_distance_hval by (intros t Ht _; by apply (valid_elem start goal)).
    by apply Hfuel.
  - intros q Hq. apply Hopt; [done|]. apply frontier_initial.
Qed.

(** ** Results on [a_star_solver] *)

Lemma route_last s p t : route s p t → last (s :: p) = Some t.
Proof.
  intros Hr. rewrite last_lookup. simpl. by apply route_lookup_last.
Qed.

Lemma route_last_moved s p t : route s p t → s ≠ t → last p = Some t.
Proof.
  destruct 1 as [|p y x Hr Hm]; [done|]. intros _. apply last_snoc.
Qed.

(** C1.  When the goal can be reached from the start by legal moves, the
    sequence returned is a walk of legal moves from the start to the goal,
    one configuration per move, and no walk from the start to the goal
    takes fewer moves. *)
Theorem a_star_solver_shortest (start goal : list Z) :
  valid start → valid goal → (∃ q, route start q goal) →
  ∃ path, returns start goal (Ok path) ∧ route start path goal ∧
          ∀ q, route start q goal → (length path ≤ length q)%nat.
Proof.
  intros Hs Hg [q0 Hq0].
  destruct (a_star_solver_total start goal Hs Hg) as (path & Hret & _ & _ & Hopt).
  exists path. split_and!; [done|by apply (Hopt q0)|].
  intros q Hq. by apply (Hopt q).
Qed.

(** C6.  When the goal can be reached, the sequence returned leaves out the
    start, ends in the goal (it is empty when the start is the goal), and
    each of its configurations comes from the one before it, the start for
    the first, by one legal move. *)
Theorem a_star_solver_path_legal (start goal : list Z) :
  valid start → valid goal → (∃ q, route start q goal) →
  ∃ path, returns start goal (Ok path) ∧ (start ∉ path) ∧
          last (start :: path) = Some goal ∧
          (start ≠ goal → last path = Some goal) ∧
          ∀ (i : nat) a b,
            (start :: path) !! i = Some a → path !! i = Some b → move a b.
Proof.
  intros Hs Hg [q0 Hq0].
  destruct (a_star_solver_total start goal Hs Hg) as (path & Hret & Hnot & _ & Hopt).
  destruct (Hopt q0 Hq0) as [Hr _].
  exists path. split_and!; [done|done|by apply route_last|by apply route_last_moved|].
  intros i a b. by apply route_lookup_move with (t := goal).
Qed.

(** C7.  Every call on valid configurations returns a sequence, and the
    sequence is empty when no walk of legal moves leads from the start to
    the goal. *)
Theorem a_star_solver_terminates (start goal : list Z) :
  valid start → valid goal →
  ∃ path, returns start goal (Ok path) ∧
          ((¬ ∃ q, route start q goal) → path = []).
Proof.
  intros Hs Hg.
  destruct (a_star_solver_total start goal Hs Hg) as (path & Hret & _ & Hr & _).
  exists path. split; [done|]. intros Hno.
  destruct Hr as [->|Hr]; [done|]. exfalso. apply Hno. by exists path.
Qed.

Lemma move_ex_start_mid : move ex_start ex_mid.
Proof.
  exists 4%nat, 7%nat, 5. split_and!; try reflexivity.
  unfold adjacent. by vm_compute.
Qed.

Lemma move_ex_mid_goal : move ex_mid ex_goal.
Proof.
  exists 7%nat, 8%nat, 8. split_and!; try reflexivity.
  unfold adjacent. by vm_compute.
Qed.

Lemma route_ex : route ex_start [ex_mid; ex_goal] ex_goal.
Proof.
  apply (route_snoc ex_start [ex_mid] ex_mid ex_goal); [|exact move_ex_mid_goal].
  apply (route_snoc ex_start [] ex_start ex_mid); [constructor|exact move_ex_start_mid].
Qed.

Lemma a_star_solver_shortest_witness :
  valid ex_start ∧ valid ex_goal ∧ (∃ q, route ex_start q ex_goal) ∧
  ∃ path, returns ex_start ex_goal (Ok path) ∧ route ex_start path ex_goal ∧
          ∀ q, route ex_start q ex_goal → (length path ≤ length q)%nat.
Proof.
  assert (∃ q, route ex_start q ex_goal) as Hq by (eexists; exact route_ex).
  split; [exact valid_ex_start|]. split; [exact valid_ex_goal|]. split; [exact Hq|].
  exact (a_star_solver_shortest ex_start ex_goal valid_ex_start valid_ex_goal Hq).
Defined.

Lemma a_star_solver_path_legal_witness :
  valid ex_start ∧ valid ex_goal ∧ (∃ q, route ex_start q ex_goal) ∧
  ∃ path, returns ex_start ex_goal (Ok path) ∧ (ex_start ∉ path) ∧
          last (ex_start :: path) = Some ex_goal ∧
          (ex_start ≠ ex_goal → last path = Some ex_goal) ∧
          ∀ (i : nat) a b,
            (ex_start :: path) !! i = Some a → path !! i = Some b → move a b.
Proof.
  assert (∃ q, route ex_start q ex_goal) as Hq by (eexists; exact route_ex).
  split; [exact valid_ex_start|]. split; [exact valid_ex_goal|]. split; [exact Hq|].
  exact (a_star_solver_path_legal ex_start ex_goal valid_ex_start valid_ex_goal Hq).
Defined.

Lemma valid_ex_swapped : valid ex_swapped.
Proof. apply (bool_decide_unpack _). by vm_compute. Qed.

Lemma ex_swapped_unreachable : ¬ ∃ q, route ex_swapped q ex_goal.
Proof.
  intros [q Hq]. by pose proof (route_is_solvable _ _ _ valid_ex_swapped Hq).
Qed.

Lemma a_star_solver_terminates_witness :
  valid ex_swapped ∧ valid ex_goal ∧ (¬ ∃ q, route ex_swapped q ex_goal) ∧
  returns ex_swapped ex_goal (Ok []).
Proof.
  split; [exact valid_ex_swapped|]. split; [exact valid_ex_goal|].
  split; [exact ex_swapped_unreachable|].
  destruct (a_star_solver_terminates ex_swapped ex_goal valid_ex_swapped valid_ex_goal)
    as (path & Hret & Hempty).
  rewrite (Hempty ex_swapped_unreachable) in Hret. exact Hret.
Defined.

Lemma a_star_solver_ex : returns ex_start ex_goal (Ok [ex_mid; ex_goal]).
Proof. apply (returns_intro 6). by vm_compute. Qed.

(** C4, as the source has it.  For the start [1,2,3,4,blank,6,7,5,8] and the
    goal [1,2,3,4,5,6,7,8,blank], [is_solvable] accepts the start and the
    solver returns the two configurations of the walk blank-down,
    blank-right, which ends in the goal; no walk to the goal takes fewer
    than two moves. *)
Theorem a_star_solver_example :
  is_solvable ex_start = true ∧
  returns ex_start ex_goal (Ok [ex_mid; ex_goal]) ∧
  last [ex_mid; ex_goal] = Some ex_goal ∧
  ∀ q, route ex_start q ex_goal → (2 ≤ length q)%nat.
Proof.
  split_and!; [reflexivity|exact a_star_solver_ex|reflexivity|].
  intros q Hq.
  destruct (a_star_solver_total ex_start ex_goal valid_ex_start valid_ex_goal)
    as (path & Hret & _ & _ & Hopt).
  pose proof (returns_unique _ _ _ _ Hret a_star_solver_ex) as [= ->].
  by apply (Hopt q).
Qed.

(** C4, as stated, fails: the sequence returned for this start and goal has
    two configurations, not three. *)
Lemma a_star_solver_example_not_three :
  ¬ ∃ path, returns ex_start ex_goal (Ok path) ∧ length path = 3%nat.
Proof.
  intros (path & Hret & Hlen).
  by pose proof (returns_unique _ _ _ _ Hret a_star_solver_ex) as [= ->].
Qed.

(** * Further properties of the solvability test and of the heuristic *)

(** ** [is_solvable] *)

Lemma non_blank_app l1 l2 : non_blank (l1 ++ l2) = non_blank l1 ++ non_blank l2.
Proof. apply filter_app. Qed.

Lemma non_blank_cons_tile x l : x ≠ BLANK_TILE → non_blank (x :: l) = x :: non_blank l.
Proof. intros Hx. unfold non_blank. by rewrite filter_cons_True. Qed.

(** X1.  Exchanging two neighbouring non-blank tiles of the row-major
    sequence (distinct identifiers) turns the verdict of [is_solvable]
    into its opposite. *)
Theorem is_solvable_transposition (l1 l2 : list Z) (x y : Z) :
  x ≠ BLANK_TILE → y ≠ BLANK_TILE → x ≠ y →
  is_solvable (l1 ++ x :: y :: l2) = negb (is_solvable (l1 ++ y :: x :: l2)).
Proof.
  intros Hx Hy Hxy. rewrite !is_solvable_even, !non_blank_app.
  rewrite !non_blank_cons_tile by done.
  assert (x :: y :: non_blank l2 ≡ₚ y :: x :: non_blank l2) as Hp by apply perm_swap.
  pose proof (inv_count_prefix (non_blank l1) _ _ Hp) as Hd.
  cbn [inv_count] in Hd. rewrite !count_smaller_cons in Hd.
  rewrite Z.negb_even.
  assert (inv_count (non_blank l1 ++ x :: y :: non_blank l2)
            = Z.succ (inv_count (non_blank l1 ++ y :: x :: non_blank l2))
          ∨ inv_count (non_blank l1 ++ x :: y :: non_blank l2)
            = Z.pred (inv_count (non_blank l1 ++ y :: x :: non_blank l2))) as [->| ->].
  { repeat case_decide; lia. }
  - apply Z.even_succ.
  - apply Z.even_pred.
Qed.

Lemma is_solvable_transposition_witness :
  2 ≠ BLANK_TILE ∧ 1 ≠ BLANK_TILE ∧ 2 ≠ 1 ∧
  is_solvable ([] ++ 2 :: 1 :: [3; 4; 5; 6; 7; 8; BLANK_TILE])
  = negb (is_solvable ([] ++ 1 :: 2 :: [3; 4; 5; 6; 7; 8; BLANK_TILE])).
Proof.
  assert (2 ≠ BLANK_TILE) as H2 by done. assert (1 ≠ BLANK_TILE) as H1 by done.
  assert (2 ≠ 1) as H21 by done.
  split; [exact H2|]. split; [exact H1|]. split; [exact H21|].
  exact (is_solvable_transposition [] [3; 4; 5; 6; 7; 8; BLANK_TILE] 2 1 H2 H1 H21).
Defined.

(** ** [manhattan_distance] *)

(** X2.  [manhattan_distance] raises exactly when the state holds a
    non-blank tile that the goal lacks, and what it raises then is the
    [ValueError] of [list.index]; otherwise it returns a number that is not
    negative.  Nothing else about the two lists matters: neither their
    lengths nor duplicates. *)
Theorem manhattan_distance_outcome (state goal : list Z) :
  match manhattan_distance state goal with
  | Ok h => 0 ≤ h ∧ ¬ missing_identifier state goal
  | Raise e => e = ValueError ∧ missing_identifier state goal
  end.
Proof.
  destruct (decide (Exists (λ t, t ≠ BLANK_TILE ∧ t ∉ goal) state)) as [Hex|Hno].
  - apply Exists_exists in Hex as (t & Hin & Hnb & Hng).
    unfold manhattan_distance.
    rewrite (manhattan_terms_missing 0 state goal t) by done. simpl.
    split; [done|]. by exists t.
  - assert (∀ t, t ∈ state → t ≠ BLANK_TILE → t ∈ goal) as Hall.
    { intros t Hin Hnb. destruct (decide (t ∈ goal)) as [|Hng]; [done|].
      exfalso. apply Hno, Exists_exists. by exists t. }
    rewrite (manhattan_distance_hval state goal Hall). split; [apply hval_nonneg|].
    intros (t & Hin & Hnb & Hng). by apply Hng, Hall.
Qed.

Lemma hval_move_exact goal a b :
  valid a → move a b → Z.abs (hval goal a - hval goal b) = 1.
Proof.
  intros Hv (i & j & x & Hi & Hj & Hadj & ->). unfold hval.
  assert (i ≠ j) as Hne by (intros ->; by apply adjacent_ne in Hadj).
  assert (x ≠ BLANK_TILE) as Hx.
  { intros ->. apply Hne. by eapply NoDup_lookup; [apply valid_NoDup|..]. }
  rewrite (wsum_insert goal 0 _ j x) by (by rewrite list_lookup_insert_ne).
  rewrite (wsum_insert goal 0 _ i BLANK_TILE) by done.
  unfold cost. rewrite !Z.add_0_l. destruct Hadj as (_ & _ & Hadj).
  repeat case_decide; try done. unfold cell_distance. lia.
Qed.

(** X3.  The heuristic is consistent in the strongest way the move model
    allows: a legal move changes [manhattan_distance] to the goal by
    exactly one, up or down. *)
Theorem manhattan_distance_step (a b goal : list Z) :
  valid a → valid goal → move a b →
  ∃ ha hb, manhattan_distance a goal = Ok ha ∧ manhattan_distance b goal = Ok hb ∧
           Z.abs (ha - hb) = 1.
Proof.
  intros Ha Hg Hm. exists (hval goal a), (hval goal b). split_and!.
  - apply manhattan_distance_hval. intros t Ht _. by apply (valid_elem a goal).
  - apply manhattan_distance_hval. intros t Ht _.
    apply (valid_elem b goal); [exact (move_valid a b Ha Hm)|done..].
  - by apply hval_move_exact.
Qed.

Lemma manhattan_distance_step_witness :
  valid ex_start ∧ valid ex_goal ∧ move ex_start ex_mid ∧
  ∃ ha hb, manhattan_distance ex_start ex_goal = Ok ha ∧
           manhattan_distance ex_mid ex_goal = Ok hb ∧ Z.abs (ha - hb) = 1.
Proof.
  split; [exact valid_ex_start|]. split; [exact valid_ex_goal|].
  split; [exact move_ex_start_mid|].
  exact (manhattan_distance_step ex_start ex_mid ex_goal
           valid_ex_start valid_ex_goal move_ex_start_mid).
Defined.

(** X4.  The heuristic is admissible: it never exceeds the number of moves
    of a walk of legal moves from the state to the goal. *)
Theorem manhattan_distance_admissible (state goal : list Z) (q : list (list Z)) :
  valid state → valid goal → route state q goal →
  ∃ h, manhattan_distance state goal = Ok h ∧ h ≤ Z.of_nat (length q).
Proof.
  intros Hs Hg Hq. exists (hval goal state). split.
  - apply manhattan_distance_hval. intros t Ht _. by apply (valid_elem state goal).
  - pose proof (hval_route goal state q goal 0 state Hq eq_refl) as H.
    rewrite (hval_goal goal Hg) in H. lia.
Qed.

Lemma manhattan_distance_admissible_witness :
  valid ex_start ∧ valid ex_goal ∧ route ex_start [ex_mid; ex_goal] ex_goal ∧
  ∃ h, manhattan_distance ex_start ex_goal = Ok h ∧ h ≤ Z.of_nat 2.
Proof.
  split; [exact valid_ex_start|]. split; [exact valid_ex_goal|].
  split; [exact route_ex|].
  exact (manhattan_distance_admissible ex_start ex_goal [ex_mid; ex_goal]
           valid_ex_start valid_ex_goal route_ex).
Defined.

Lemma cell_distance_sym i k : cell_distance i k = cell_distance k i.
Proof. unfold cell_distance. lia. Qed.

Lemma cell_distance_zero i k : cell_distance i k = 0 → i = k.
Proof.
  unfold cell_distance, GRID_SIZE. intros H.
  pose proof (Z.div_mod i 3). pose proof (Z.div_mod k 3). lia.
Qed.

Lemma position_lookup c t :
  t ∈ c → ∃ k : nat, position c t = Z.of_nat k ∧ c !! k = Some t.
Proof.
  intros Hin. destruct (index_elem t c Hin) as (k & Hk & Hl & _).
  exists k. unfold position. by rewrite Hk.
Qed.

Lemma position_NoDup (c : list Z) (k : nat) t :
  NoDup c → c !! k = Some t → position c t = Z.of_nat k.
Proof. intros Hnd Hk. unfold position. by rewrite (index_NoDup c k t). Qed.

Lemma valid_tile c t : valid c → t ∈ c → t ≠ BLANK_TILE → t ∈ tiles.
Proof.
  unfold valid. intros -> Hin Hnb. unfold canonical, tiles in *.
  rewrite !elem_of_cons, elem_of_nil in Hin. rewrite !elem_of_cons.
  intuition.
Qed.

Lemma same_positions_lookup a b (n : nat) x :
  valid a → valid b →
  (∀ t, t ∈ tiles → position a t = position b t) →
  b !! n = Some x → x ≠ BLANK_TILE → a !! n = Some x.
Proof.
  intros Ha Hb Hpos Hn Hx.
  assert (x ∈ b) as Hin by (by eapply list_elem_of_lookup_2).
  destruct (position_lookup a x) as (k & Hk & Hl); [by apply (valid_elem b a)|].
  rewrite (Hpos x (valid_tile b x Hb Hin Hx)) in Hk.
  rewrite (position_NoDup b n x (valid_NoDup b Hb) Hn) in Hk.
  by apply Nat2Z.inj in Hk as ->.
Qed.

Lemma same_positions_eq a b :
  valid a → valid b →
  (∀ t, t ∈ tiles → position a t = position b t) → a = b.
Proof.
  intros Ha Hb Hpos. apply list_eq_same_length with 9%nat;
    [by apply valid_length..|].
  intros n x y Hn Hx Hy.
  destruct (decide (y = BLANK_TILE)) as [->|Hyb].
  - destruct (decide (x = BLANK_TILE)) as [->|Hxb]; [done|].
    assert (b !! n = Some x) as Hbx.
    { apply (same_positions_lookup b a); [done|done| |done|done].
      intros t Ht. symmetry. by apply Hpos. }
    congruence.
  - pose proof (same_positions_lookup a b n y Ha Hb Hpos Hy Hyb). congruence.
Qed.

Lemma sum_Z_zero l : Forall (λ x, 0 ≤ x) l → sum_Z l = 0 → Forall (λ x, x = 0) l.
Proof.
  unfold sum_Z. induction 1 as [|x l Hx Hl IH]; simpl; intros Hs; [constructor|].
  assert (0 ≤ foldr Z.add 0 l) by (clear -Hl; induction Hl; simpl; lia).
  constructor; [lia|]. apply IH. lia.
Qed.

(** X5.  Between valid configurations the heuristic is zero at the goal and
    nowhere else. *)
Theorem manhattan_distance_zero (state goal : list Z) :
  valid state → valid goal →
  (manhattan_distance state goal = Ok 0 ↔ state = goal).
Proof.
  intros Hs Hg. split.
  - rewrite manhattan_distance_hval by (intros t Ht _; by apply (valid_elem state goal)).
    rewrite hval_tilewise by done. intros Hok.
    assert (sum_Z (tile_distance state goal <$> tiles) = 0) as Hsum by congruence.
    apply sum_Z_zero in Hsum.
    + apply same_positions_eq; [done|done|]. intros t Ht.
      apply cell_distance_zero.
      rewrite Forall_fmap, Forall_forall in Hsum. by apply Hsum.
    + apply Forall_fmap, Forall_forall. intros t _. apply cell_distance_nonneg.
  - intros ->. rewrite manhattan_distance_self. by rewrite hval_goal.
Qed.

Lemma manhattan_distance_zero_witness :
  valid ex_goal ∧ valid ex_goal ∧
  (manhattan_distance ex_goal ex_goal = Ok 0 ↔ ex_goal = ex_goal).
Proof.
  split; [exact valid_ex_goal|]. split; [exact valid_ex_goal|].
  exact (manhattan_distance_zero ex_goal ex_goal valid_ex_goal valid_ex_goal).
Defined.

(** X6.  Between valid configurations the heuristic does not depend on
    which of the two is taken as the goal. *)
Theorem manhattan_distance_sym (a b : list Z) :
  valid a → valid b → manhattan_distance a b = manhattan_distance b a.
Proof.
  intros Ha Hb.
  rewrite !manhattan_distance_hval
    by (intros t Ht _; by (apply (valid_elem a b) || apply (valid_elem b a))).
  rewrite !hval_tilewise by done. do 2 f_equal.
  apply list_fmap_ext. intros _ t _. apply cell_distance_sym.
Qed.

Lemma manhattan_distance_sym_witness :
  valid ex_start ∧ valid ex_goal ∧
  manhattan_distance ex_start ex_goal = manhattan_distance ex_goal ex_start.
Proof.
  split; [exact valid_ex_start|]. split; [exact valid_ex_goal|].
  exact (manhattan_distance_sym ex_start ex_goal valid_ex_start valid_ex_goal).
Defined.

(** * Further properties of the solver *)

(** ** Walks can be extended at the front, reversed, joined and cut *)

Lemma route_cons s y p t : move s y → route y p t → route s (y :: p) t.
Proof.
  intros Hm Hr. induction Hr as [|p m x Hr IH Hmx].
  - apply (route_snoc s [] s y); [constructor|done].
  - exact (route_snoc s (y :: p) m x IH Hmx).
Qed.

Lemma move_sym s t : move s t → move t s.
Proof.
  intros (i & j & x & Hi & Hj & Hadj & ->).
  assert (i ≠ j) as Hne by (intros ->; by apply adjacent_ne in Hadj).
  pose proof (lookup_lt_Some _ _ _ Hi) as Hli.
  pose proof (lookup_lt_Some _ _ _ Hj) as Hlj.
  exists j, i, x. split_and!.
  - apply list_lookup_insert_eq. by rewrite length_insert.
  - rewrite list_lookup_insert_ne by done. by apply list_lookup_insert_eq.
  - destruct Hadj as (? & ? & ?). unfold adjacent. split_and!; lia.
  - rewrite list_insert_insert_eq, (list_insert_insert_ne _ i j) by done.
    rewrite list_insert_insert_eq, (list_insert_id _ i) by done.
    by rewrite list_insert_id.
Qed.

Lemma route_rev s p t : route s p t → ∃ q, route t q s ∧ length q = length p.
Proof.
  induction 1 as [|p y x Hr (q & Hq & Hlen) Hm].
  - exists []. split; [constructor|done].
  - exists (y :: q). split; [by apply route_cons; [apply move_sym|]|].
    rewrite length_app. simpl. lia.
Qed.

Lemma route_app s p m q t : route s p m → route m q t → route s (p ++ q) t.
Proof.
  intros Hp Hq. induction Hq as [|q y x Hq IH Hm].
  - by rewrite app_nil_r.
  - rewrite app_assoc. by econstructor.
Qed.

Lemma route_Forall_valid s p t : valid s → route s p t → Forall valid p.
Proof.
  intros Hs. induction 1 as [|p y x Hr IH Hm]; [constructor|].
  apply Forall_app. split; [done|]. repeat constructor.
  eapply move_valid; [|done]. by eapply route_valid.
Qed.

Lemma route_take s p t (i : nat) x :
  route s p t → (s :: p) !! i = Some x → route s (take i p) x.
Proof.
  intros Hr. revert i x. induction Hr as [|p y x0 Hr IH Hm]; intros i x Hi.
  - destruct i; simplify_eq/=; constructor.
  - destruct (decide (i ≤ length p)%nat) as [Hle|Hgt].
    + rewrite app_comm_cons, lookup_app_l in Hi by (simpl; lia).
      rewrite take_app_le by done. by apply IH.
    + assert (i = S (length p)) as ->.
      { apply lookup_lt_Some in Hi. simpl in Hi. rewrite length_app in Hi.
        simpl in Hi. lia. }
      rewrite lookup_cons_snoc in Hi. injection Hi as <-.
      rewrite take_ge by (rewrite length_app; simpl; lia). by econstructor.
Qed.

Lemma route_drop s p t (j : nat) x :
  route s p t → (s :: p) !! j = Some x → route x (drop j p) t.
Proof.
  intros Hr. revert j x. induction Hr as [|p y x0 Hr IH Hm]; intros j x Hj.
  - destruct j; simplify_eq/=; constructor.
  - destruct (decide (j ≤ length p)%nat) as [Hle|Hgt].
    + rewrite app_comm_cons, lookup_app_l in Hj by (simpl; lia).
      rewrite drop_app_le by done. econstructor; [by apply IH|done].
    + assert (j = S (length p)) as ->.
      { apply lookup_lt_Some in Hj. simpl in Hj. rewrite length_app in Hj.
        simpl in Hj. lia. }
      rewrite lookup_cons_snoc in Hj. injection Hj as <-.
      rewrite drop_ge by (rewrite length_app; simpl; lia). constructor.
Qed.

(** A walk that no walk undercuts meets no configuration twice. *)
Lemma shortest_NoDup s p t :
  route s p t → (∀ q, route s q t → (length p ≤ length q)%nat) → NoDup (s :: p).
Proof.
  intros Hr Hmin.
  assert (∀ (i j : nat) x, (i < j)%nat →
            (s :: p) !! i = Some x → (s :: p) !! j = Some x → False) as Hcut.
  { intros i j x Hlt Hi Hj.
    pose proof (route_app _ _ _ _ _ (route_take _ _ _ _ _ Hr Hi)
                  (route_drop _ _ _ _ _ Hr Hj)) as Hq.
    apply Hmin in Hq. apply lookup_lt_Some in Hj. simpl in Hj.
    rewrite length_app, length_take, length_drop in Hq. lia. }
  apply NoDup_alt. intros i j x Hi Hj.
  destruct (lt_eq_lt_dec i j) as [[Hlt|Heq]|Hlt]; [|done|]; exfalso; by eauto.
Qed.

(** X7.  On valid configurations every configuration of the returned
    sequence is valid, and no configuration, the start included, occurs
    twice on the way. *)
Theorem a_star_solver_frames (start goal : list Z) (path : list (list Z)) :
  valid start → valid goal → returns start goal (Ok path) →
  Forall valid path ∧ NoDup (start :: path).
Proof.
  intros Hs Hg Hret.
  destruct (a_star_solver_total start goal Hs Hg) as (path' & Hret' & _ & Hr & Hopt).
  pose proof (returns_unique _ _ _ _ Hret Hret') as [= ->].
  destruct Hr as [->|Hr].
  - split; [constructor|]. apply NoDup_singleton.
  - split; [exact (route_Forall_valid start path' goal Hs Hr)|].
    eapply shortest_NoDup; [done|]. intros q Hq. by apply (Hopt q).
Qed.

Lemma a_star_solver_frames_witness :
  valid ex_start ∧ valid ex_goal ∧ returns ex_start ex_goal (Ok [ex_mid; ex_goal]) ∧
  Forall valid [ex_mid; ex_goal] ∧ NoDup (ex_start :: [ex_mid; ex_goal]).
Proof.
  split; [exact valid_ex_start|]. split; [exact valid_ex_goal|].
  split; [exact a_star_solver_ex|].
  exact (a_star_solver_frames ex_start ex_goal [ex_mid; ex_goal]
           valid_ex_start valid_ex_goal a_star_solver_ex).
Defined.

(** X8.  When [is_solvable] gives different verdicts for the start and for
    the goal, the solver returns the empty sequence. *)
Theorem a_star_solver_parity_mismatch (start goal : list Z) :
  valid start → valid goal → is_solvable start ≠ is_solvable goal →
  returns start goal (Ok []).
Proof.
  intros Hs Hg Hne.
  destruct (a_star_solver_total start goal Hs Hg) as (path & Hret & _ & [->|Hr] & _);
    [done|].
  exfalso. apply Hne. symmetry. by eapply route_is_solvable.
Qed.

Lemma a_star_solver_parity_mismatch_witness :
  valid ex_swapped ∧ valid ex_goal ∧ is_solvable ex_swapped ≠ is_solvable ex_goal ∧
  returns ex_swapped ex_goal (Ok []).
Proof.
  assert (is_solvable ex_swapped ≠ is_solvable ex_goal) as Hne by done.
  split; [exact valid_ex_swapped|]. split; [exact valid_ex_goal|].
  split; [exact Hne|].
  exact (a_star_solver_parity_mismatch ex_swapped ex_goal
           valid_ex_swapped valid_ex_goal Hne).
Defined.

(** X9.  Solving from the goal back to the start takes as many moves as
    solving from the start to the goal: the two returned sequences have the
    same length. *)
Theorem a_star_solver_symmetric (start goal : list Z) :
  valid start → valid goal →
  ∃ p1 p2, returns start goal (Ok p1) ∧ returns goal start (Ok p2) ∧
           length p1 = length p2.
Proof.
  intros Hs Hg.
  destruct (a_star_solver_total start goal Hs Hg) as (p1 & Hret1 & _ & Hr1 & Hopt1).
  destruct (a_star_solver_total goal start Hg Hs) as (p2 & Hret2 & _ & Hr2 & Hopt2).
  exists p1, p2. split_and!; [done|done|].
  assert (route start p1 goal → length p1 = length p2) as H1.
  { intros Hr. destruct (route_rev _ _ _ Hr) as (q & Hq & Hlen).
    destruct (Hopt2 q Hq) as [Hr' Hle].
    destruct (route_rev _ _ _ Hr') as (q' & Hq' & Hlen').
    destruct (Hopt1 q' Hq') as [_ Hle']. lia. }
  destruct Hr1 as [->|Hr1]; [|by apply H1].
  destruct Hr2 as [->|Hr2]; [done|].
  destruct (route_rev _ _ _ Hr2) as (q & Hq & _).
  apply H1. by apply (Hopt1 q).
Qed.

Lemma a_star_solver_symmetric_witness :
  valid ex_start ∧ valid ex_goal ∧
  ∃ p1 p2, returns ex_start ex_goal (Ok p1) ∧ returns ex_goal ex_start (Ok p2) ∧
           length p1 = length p2.
Proof.
  split; [exact valid_ex_start|]. split; [exact valid_ex_goal|].
  exact (a_star_solver_symmetric ex_start ex_goal valid_ex_start valid_ex_goal).
Defined.

(** ** Which configurations reach the goal of the game *)

Lemma valid_canonical : valid canonical.
Proof. unfold valid. reflexivity. Qed.

Lemma neighbors_move c t : valid c → t ∈ neighbors c → move c t.
Proof.
  intros Hv Hin. unfold neighbors in Hin.
  destruct (index_blank c Hv) as (k & Hidx & Hk & Hk9). rewrite Hidx in Hin.
  apply list_elem_of_omap in Hin as (d & Hd & Hf).
  destruct (target (Z.of_nat k) d) as [j|] eqn:Ht; [|done].
  destruct (c !! Z.to_nat j) as [x|] eqn:Hx; [|done]. injection Hf as <-.
  pose proof (target_adjacent _ _ _ Hk9 Hd Ht) as Hadj.
  pose proof Hadj as (_ & Hj9 & _).
  exists k, (Z.to_nat j), x. rewrite Nat2Z.id. split_and!; try done.
  by rewrite Z2Nat.id by lia.
Qed.

Lemma reach_within_mono n m s : (n ≤ m)%nat → reach_within n s → reach_within m s.
Proof. intros Hle (p & Hp & Hlen). exists p. split; [done|lia]. Qed.

Lemma reach_within_valid n s : reach_within n s → valid s.
Proof. intros (p & Hp & _). exact (route_valid canonical p s valid_canonical Hp). Qed.

Lemma reach_within_step n s t : reach_within n s → move s t → reach_within (S n) t.
Proof.
  intros (p & Hp & Hlen) Hm. exists (p ++ [t]). split; [by econstructor|].
  rewrite length_app. simpl. lia.
Qed.

Lemma visit_sound n acc t :
  sound n acc.2 → Forall (reach_within n) acc.1 → reach_within n t →
  sound n (visit acc t).2 ∧ Forall (reach_within n) (visit acc t).1.
Proof.
  intros Hs Hf Ht. unfold visit. destruct (acc.2 !! code t); [done|]. simpl.
  split; [|by constructor].
  intros k s. destruct (decide (k = code t)) as [->|Hne].
  - rewrite lookup_insert_eq. by intros [= <-].
  - rewrite lookup_insert_ne by done. apply Hs.
Qed.

Lemma foldl_visit_sound n l acc :
  Forall (reach_within n) l →
  sound n acc.2 → Forall (reach_within n) acc.1 →
  sound n (foldl visit acc l).2 ∧ Forall (reach_within n) (foldl visit acc l).1.
Proof.
  intros Hl. revert acc. induction Hl as [|t l Ht Hl IH]; intros acc Hs Hf; [done|].
  simpl. destruct (visit_sound n acc t Hs Hf Ht). by apply IH.
Qed.

Lemma level_sound n frontier acc :
  Forall (reach_within n) frontier →
  sound (S n) acc.2 → Forall (reach_within (S n)) acc.1 →
  sound (S n) (foldl (λ acc s, foldl visit acc (neighbors s)) acc frontier).2 ∧
  Forall (reach_within (S n))
    (foldl (λ acc s, foldl visit acc (neighbors s)) acc frontier).1.
Proof.
  intros Hfr. revert acc. induction Hfr as [|s fr Hs Hfr IH]; intros acc Hv Hf; [done|].
  simpl. apply IH; apply foldl_visit_sound; try done.
  all: apply Forall_forall; intros t Ht; apply (reach_within_step n s); [done|];
    apply neighbors_move; [by eapply reach_within_valid|done].
Qed.

Lemma bfs_sound rounds n frontier vis :
  sound n vis → Forall (reach_within n) frontier →
  sound (n + rounds) (bfs rounds frontier vis).
Proof.
  revert n frontier vis. induction rounds as [|rounds IH]; intros n frontier vis Hs Hf.
  - by rewrite Nat.add_0_r.
  - simpl. replace (n + S rounds)%nat with (S n + rounds)%nat by lia.
    destruct (level_sound n frontier ([], vis) Hf) as [Hs' Hf'].
    + intros k s Hk. apply (reach_within_mono n); [lia|]. exact (Hs k s Hk).
    + constructor.
    + by apply IH.
Qed.

Lemma reached_sound : sound 31 reached.
Proof.

  unfold reached.
  refine (bfs_sound 31 0 [canonical] {[ code canonical := canonical ]} _ _).
  - intros k s [_ <-]%lookup_singleton_Some. exists []. split; [constructor|done].
  - constructor; [|constructor]. exists []. split; [constructor|done].
Qed.

Lemma all_covered : forallb (covered reached) (permutations canonical) = true.
Proof. vm_compute. reflexivity. Qed.

(** Every valid configuration with an even number of inversions is within
    31 moves of [canonical]. *)
Lemma solvable_reach_within c :
  valid c → is_solvable c = true → reach_within 31 c.
Proof.
  intros Hv Hsol.
  assert (covered reached c = true) as Hcov.
  { apply (proj1 (forallb_forall _ _) all_covered).
    apply list_elem_of_In, permutations_Permutation. by symmetry. }
  unfold covered in Hcov. rewrite <- is_solvable_even, Hsol in Hcov.
  destruct (reached !! code c) as [s|] eqn:Hs; cbn [implb] in Hcov; [|discriminate].
  apply bool_decide_eq_true in Hcov as ->. exact (reached_sound _ _ Hs).
Qed.

(** X10.  [is_solvable] decides whether the goal of the game can be reached:
    for a valid configuration it returns true exactly when some walk of
    legal moves leads from the configuration to [1,...,8,blank]. *)
Theorem is_solvable_reachable (c : list Z) :
  valid c → (is_solvable c = true ↔ ∃ q, route c q canonical).
Proof.
  intros Hv. split.
  - intros Hsol. destruct (solvable_reach_within c Hv Hsol) as (p & Hp & _).
    destruct (route_rev _ _ _ Hp) as (q & Hq & _). by exists q.
  - intros [q Hq]. by rewrite <- (route_is_solvable c q canonical Hv Hq).
Qed.

Lemma is_solvable_reachable_witness :
  valid ex_start ∧ (is_solvable ex_start = true ↔ ∃ q, route ex_start q canonical).
Proof.
  split; [exact valid_ex_start|].
  exact (is_solvable_reachable ex_start valid_ex_start).
Defined.

(** X11.  For a valid start that [is_solvable] accepts, the solver called
    with the goal of the game returns a walk of legal moves from the start
    to that goal, of at most 31 configurations. *)
Theorem a_star_solver_canonical (start : list Z) :
  valid start → is_solvable start = true →
  ∃ path, returns start canonical (Ok path) ∧ route start path canonical ∧
          (length path ≤ 31)%nat.
Proof.
  intros Hv Hsol.
  destruct (solvable_reach_within start Hv Hsol) as (p & Hp & Hlen).
  destruct (route_rev _ _ _ Hp) as (q & Hq & Hlenq).
  destruct (a_star_solver_total start canonical Hv valid_canonical)
    as (path & Hret & _ & _ & Hopt).
  destruct (Hopt q Hq) as [Hr Hle].
  exists path. split_and!; [done|done|lia].
Qed.

Lemma a_star_solver_canonical_witness :
  valid ex_start ∧ is_solvable ex_start = true ∧
  ∃ path, returns ex_start canonical (Ok path) ∧ route ex_start path canonical ∧
          (length path ≤ 31)%nat.
Proof.
  split; [exact valid_ex_start|]. split; [reflexivity|].
  exact (a_star_solver_canonical ex_start valid_ex_start eq_refl).
Defined.

(** * The picture: [split_image] and [draw_tiles] *)

Lemma split_image_value : split_image = Ok (image_tiles_of_split, canonical).
Proof. reflexivity. Qed.



Lemma item_image_tiles (n : Z) :
  n ≠ BLANK_TILE →
  (drawable n ∧
   item image_tiles_of_split (n - 1) = Ok (Some (cell_rect ((n - 1) `mod` 9)))) ∨
  ((n = 0 ∨ n = 9) ∧ item image_tiles_of_split (n - 1) = Ok None) ∨
  ((n < -8 ∨ 9 < n) ∧ item image_tiles_of_split (n - 1) = Raise IndexError).
Proof.
  intros Hnb. unfold BLANK_TILE in Hnb.
  destruct (decide (n < -8 ∨ 9 < n)) as [Hout|Hin].
  - right. right. split; [done|]. unfold item, subscript.
    change (length image_tiles_of_split) with 9%nat.
    destruct (decide (n - 1 < 0)); rewrite decide_False by lia; done.
  - assert (n = -8 ∨ n = -7 ∨ n = -6 ∨ n = -5 ∨ n = -4 ∨ n = -3 ∨ n = -2 ∨ n = 0 ∨
            n = 1 ∨ n = 2 ∨ n = 3 ∨ n = 4 ∨ n = 5 ∨ n = 6 ∨ n = 7 ∨ n = 8 ∨ n = 9)
      as Hcases by lia.
    unfold drawable.
    repeat (destruct Hcases as [->|Hcases]); try subst n;
      first [ left; split; [lia|reflexivity]
            | right; left; split; [lia|reflexivity] ].
Qed.

Lemma draw_from_drawable (i : Z) (cfg : list Z) :
  Forall drawable cfg →
  (draw_from i image_tiles_of_split cfg).2 = None ∧
  length (draw_from i image_tiles_of_split cfg).1 = length cfg ∧
  ∀ (k : nat) n, cfg !! k = Some n →
    (draw_from i image_tiles_of_split cfg).1 !! k = Some (cell_op (i + Z.of_nat k) n).
Proof.
  intros Hall. revert i. induction Hall as [|n cfg Hn Hall IH]; intros i.
  - split_and!; [done|done|]. intros k n. by rewrite lookup_nil.
  - destruct (IH (i + 1)) as (He & Hlen & Hops). cbn [draw_from].
    assert (∀ op, (∀ (k : nat) m, (n :: cfg) !! k = Some m →
              (op :: (draw_from (i + 1) image_tiles_of_split cfg).1) !! k
              = Some (cell_op (i + Z.of_nat k) m)) ↔ op = cell_op i n) as Hhead.
    { intros op. split.
      - intros H. specialize (H 0%nat n eq_refl). simpl in H.
        rewrite Z.add_0_r in H. congruence.
      - intros -> [|k] m Hk; simplify_eq/=.
        + by rewrite Z.add_0_r.
        + rewrite (Hops k m Hk). do 2 f_equal. lia. }
    case_decide as Hb.
    + destruct (item_image_tiles n Hb) as [[_ ->]|[[Hbad _]|[Hbad _]]];
        [|destruct Hn; lia..].
      cbn [fst snd]. split_and!; [done|by simpl; rewrite Hlen|].
      apply Hhead. unfold cell_op. by rewrite decide_False.
    + cbn [fst snd]. split_and!; [done|by simpl; rewrite Hlen|].
      apply Hhead. unfold cell_op. by rewrite decide_True.
Qed.




Lemma valid_drawable c : valid c → Forall drawable c.
Proof.
  unfold valid. intros ->. unfold canonical, BLANK_TILE, drawable.
  repeat constructor; lia.
Qed.

Lemma draw_tiles_ok cfg :
  valid cfg →
  ∃ ops, draw_tiles image_tiles_of_split cfg = (ops, None) ∧ length ops = 9%nat.
Proof.
  intros Hv.
  destruct (draw_from_drawable 0 cfg (valid_drawable cfg Hv)) as (He & Hlen & _).
  exists (draw_tiles image_tiles_of_split cfg).1. split.
  - unfold draw_tiles. by rewrite <- He, <- surjective_pairing.
  - unfold draw_tiles. by rewrite Hlen, (valid_length cfg Hv).
Qed.

(** X14.  On a valid configuration, with the tiles of [split_image],
    [draw_tiles] raises nothing and issues nine operations, one per cell: it
    whitens the cell of the blank, and into the cell of tile [n] it copies
    the piece of the picture cut from cell [n - 1], so that a tile standing
    in its home cell shows the picture in place.  Each operation paints
    exactly its cell of the window. *)
Theorem draw_tiles_valid (cfg : list Z) :
  valid cfg →
  ∃ ops, draw_tiles image_tiles_of_split cfg = (ops, None) ∧ length ops = 9%nat ∧
    ∀ (i : nat) n, cfg !! i = Some n →
      ∃ op, ops !! i = Some op ∧ painted op = cell_rect (Z.of_nat i) ∧
        op = (if decide (n = BLANK_TILE) then FillWhite (cell_rect (Z.of_nat i))
              else Blit (cell_rect (n - 1))
                     (rect_x (cell_rect (Z.of_nat i))) (rect_y (cell_rect (Z.of_nat i)))).
Proof.
  intros Hv.
  destruct (draw_from_drawable 0 cfg (valid_drawable cfg Hv)) as (He & Hlen & Hops).
  exists (draw_tiles image_tiles_of_split cfg).1. split_and!.
  - unfold draw_tiles. by rewrite <- He, <- surjective_pairing.
  - unfold draw_tiles. by rewrite Hlen, (valid_length cfg Hv).
  - intros i n Hi. exists (cell_op (Z.of_nat i) n).
    specialize (Hops i n Hi). rewrite Z.add_0_l in Hops.
    split; [exact Hops|]. unfold cell_op. case_decide as Hb; [done|].
    assert (n ∈ tiles) as Hn
      by (apply (valid_tile cfg); [done|by eapply list_elem_of_lookup_2|done]).
    unfold tiles in Hn. rewrite !elem_of_cons, elem_of_nil in Hn.
    destruct Hn as [->|[->|[->|[->|[->|[->|[->|[->|[]]]]]]]]]; done.
Qed.

Lemma draw_tiles_valid_witness :
  valid ex_start ∧
  ∃ ops, draw_tiles image_tiles_of_split ex_start = (ops, None) ∧ length ops = 9%nat ∧
    ∀ (i : nat) n, ex_start !! i = Some n →
      ∃ op, ops !! i = Some op ∧ painted op = cell_rect (Z.of_nat i) ∧
        op = (if decide (n = BLANK_TILE) then FillWhite (cell_rect (Z.of_nat i))
              else Blit (cell_rect (n - 1))
                     (rect_x (cell_rect (Z.of_nat i))) (rect_y (cell_rect (Z.of_nat i)))).
Proof.
  split; [exact valid_ex_start|]. exact (draw_tiles_valid ex_start valid_ex_start).
Defined.

(** * The game: [shuffle_tiles] and the main loop *)

Lemma attempt_perm rnd (k n : nat) l :
  (∀ k l, rnd k l ≡ₚ l) → attempt rnd k n l ≡ₚ l.
Proof.
  intros Hrnd. revert k l. induction n as [|n IH]; intros k l; simpl; [done|].
  by rewrite IH.
Qed.

(** X15.  Whatever arrangements [random.shuffle] produces, when
    [shuffle_tiles] ends the list is a rearrangement of the one it was given
    and [is_solvable] accepts it; it is the first accepted arrangement in
    the sequence of shuffles, and at least one shuffle is made even when the
    list given is accepted already. *)
Theorem shuffle_tiles_result (rnd : nat → list Z → list Z) (fuel k : nat)
    (numbered_tiles shuffled : list Z) :
  (∀ k l, rnd k l ≡ₚ l) →
  shuffle_tiles rnd fuel k numbered_tiles = Some shuffled →
  shuffled ≡ₚ numbered_tiles ∧ is_solvable shuffled = true ∧
  ∃ n : nat, (n < fuel)%nat ∧ shuffled = attempt rnd k n numbered_tiles ∧
    ∀ m : nat, (m < n)%nat → is_solvable (attempt rnd k m numbered_tiles) = false.
Proof.
  intros Hrnd. revert k numbered_tiles.
  induction fuel as [|fuel IH]; intros k l; simpl; [done|].
  destruct (is_solvable (rnd k l)) eqn:Hsol.
  - intros [= <-]. split_and!; [done|done|].
    exists 0%nat. split_and!; [lia|done|]. intros m Hm. lia.
  - intros Hrec. destruct (IH _ _ Hrec) as (Hp & Hs & n & Hn & Heq & Hfirst).
    split_and!; [by rewrite Hp|done|].
    exists (S n). split_and!; [lia|done|].
    intros [|m] Hm; simpl; [done|]. apply Hfirst. lia.
Qed.

Lemma shuffle_tiles_result_witness :
  (∀ (k : nat) (l : list Z), (λ _ l, reverse l) k l ≡ₚ l) ∧
  shuffle_tiles (λ _ l, reverse l) 1 0 canonical = Some (reverse canonical) ∧
  reverse canonical ≡ₚ canonical ∧ is_solvable (reverse canonical) = true ∧
  ∃ n : nat, (n < 1)%nat ∧
    reverse canonical = attempt (λ _ l, reverse l) 0 n canonical ∧
    ∀ m : nat, (m < n)%nat →
      is_solvable (attempt (λ _ l, reverse l) 0 m canonical) = false.
Proof.
  assert (∀ (k : nat) (l : list Z), (λ _ l, reverse l) k l ≡ₚ l) as Hrnd
    by (intros k l; apply reverse_Permutation).
  assert (shuffle_tiles (λ _ l, reverse l) 1 0 canonical = Some (reverse canonical))
    as Hrun by reflexivity.
  split; [exact Hrnd|]. split; [exact Hrun|].
  exact (shuffle_tiles_result (λ _ l, reverse l) 1 0 canonical (reverse canonical)
           Hrnd Hrun).
Defined.

Lemma playback_S solution numbered_tiles n :
  playback solution numbered_tiles (S n)
  = next_frame solution (playback solution numbered_tiles n).
Proof. done. Qed.

Lemma playback_closed solution numbered_tiles (n : nat) :
  (playback solution numbered_tiles n).2 = (n `min` length solution)%nat ∧
  (numbered_tiles :: solution) !! (n `min` length solution)%nat
  = Some (playback solution numbered_tiles n).1.
Proof.
  induction n as [|n [IH2 IH1]]; [done|].
  rewrite playback_S. unfold next_frame. rewrite IH2.
  destruct (decide (n < length solution)%nat) as [Hlt|Hge].
  - rewrite (Nat.min_l n) by lia.
    destruct (lookup_lt_is_Some_2 solution n Hlt) as [c Hc]. rewrite Hc.
    cbn [fst snd]. rewrite (Nat.min_l (S n)) by lia. split; [done|exact Hc].
  - rewrite (Nat.min_r n) in IH1 |- * by lia.
    rewrite (lookup_ge_None_2 solution) by lia.
    rewrite (Nat.min_r (S n)) by lia. rewrite (Nat.min_r n) in IH2 by lia.
    split; [exact IH2|exact IH1].
Qed.

(** X16.  The main loop shows the solution one configuration per round,
    beginning with the first configuration of the solution, not with the
    shuffled one.  When the solution is a walk of legal moves from the
    shuffled configuration to the goal, what is shown changes by one legal
    move in each of the first rounds, is the goal once as many rounds have
    passed as the solution is long, and stays the goal. *)
Theorem playback_route (start goal : list Z) (solution : list (list Z)) :
  route start solution goal →
  (∀ n : nat, (n < length solution)%nat →
     solution !! n = Some (playback solution start (S n)).1 ∧
     move (playback solution start n).1 (playback solution start (S n)).1) ∧
  (∀ n : nat, (length solution ≤ n)%nat → (playback solution start n).1 = goal).
Proof.
  intros Hr. split.
  - intros n Hn.
    destruct (playback_closed solution start n) as [_ H1].
    destruct (playback_closed solution start (S n)) as [_ H2].
    rewrite Nat.min_l in H1, H2 by lia. split; [exact H2|].
    by eapply route_lookup_move.
  - intros n Hn. destruct (playback_closed solution start n) as [_ H1].
    rewrite Nat.min_r in H1 by lia.
    rewrite (route_lookup_last _ _ _ Hr) in H1. by injection H1.
Qed.

Lemma playback_route_witness :
  route ex_start [ex_mid; ex_goal] ex_goal ∧
  (∀ n : nat, (n < length [ex_mid; ex_goal])%nat →
     [ex_mid; ex_goal] !! n = Some (playback [ex_mid; ex_goal] ex_start (S n)).1 ∧
     move (playback [ex_mid; ex_goal] ex_start n).1
          (playback [ex_mid; ex_goal] ex_start (S n)).1) ∧
  (∀ n : nat, (length [ex_mid; ex_goal] ≤ n)%nat →
     (playback [ex_mid; ex_goal] ex_start n).1 = ex_goal).
Proof.
  split; [exact route_ex|].
  exact (playback_route ex_start ex_goal [ex_mid; ex_goal] route_ex).
Defined.

(** X17.  Whatever arrangements [random.shuffle] produces, once the shuffle
    loop has ended the game raises nothing: the solver returns, every round
    of the main loop draws its nine cells, and after at most 31 rounds every
    round draws the solved puzzle. *)
Theorem run_puzzle_game_solves (rnd : nat → list Z → list Z) (fuel_shuffle : nat) :
  (∀ k l, rnd k l ≡ₚ l) →
  is_Some (shuffle_tiles rnd fuel_shuffle 0 canonical) →
  ∃ fuel (len : nat), (len ≤ 31)%nat ∧
    ∀ fuel_solver n : nat, (fuel ≤ fuel_solver)%nat →
      ∃ ops, run_puzzle_game rnd fuel_shuffle fuel_solver n = Some (Ok (ops, None)) ∧
             length ops = 9%nat ∧
             ((len ≤ n)%nat → (ops, None) = draw_tiles image_tiles_of_split canonical).
Proof.
  intros Hrnd [shuffled Hsh].
  destruct (shuffle_tiles_result rnd fuel_shuffle 0 canonical shuffled Hrnd Hsh)
    as (Hp & Hsol & _).
  assert (valid shuffled) as Hv by exact Hp.
  destruct (solvable_reach_within shuffled Hv Hsol) as (p & Hp' & Hlen).
  destruct (route_rev _ _ _ Hp') as (q & Hq & Hlenq).
  destruct (a_star_solver_total shuffled canonical Hv valid_canonical)
    as (path & [fuel Hfuel] & _ & _ & Hopt).
  destruct (Hopt q Hq) as [Hr Hle].
  exists fuel, (length path). split; [lia|].
  intros fuel_solver n Hf. unfold run_puzzle_game.
  rewrite split_image_value, Hsh, (Hfuel fuel_solver Hf).
  destruct (playback_closed path shuffled n) as [_ Hshow].
  assert (valid (playback path shuffled n).1) as Hvn.
  { apply list_elem_of_lookup_2 in Hshow. apply elem_of_cons in Hshow as [->|Hin]; [done|].
    pose proof (route_Forall_valid shuffled path canonical Hv Hr) as Hall.
    by eapply Forall_forall in Hall. }
  destruct (draw_tiles_ok _ Hvn) as (ops & Hops & Hlen9).
  exists ops. split_and!; [by rewrite Hops|done|].
  intros Hn. rewrite <- Hops. f_equal.
  by apply (playback_route shuffled canonical path Hr).
Qed.

Lemma run_puzzle_game_solves_witness :
  (∀ (k : nat) (l : list Z), (λ _ l, reverse l) k l ≡ₚ l) ∧
  is_Some (shuffle_tiles (λ _ l, reverse l) 1 0 canonical) ∧
  ∃ fuel (len : nat), (len ≤ 31)%nat ∧
    ∀ fuel_solver n : nat, (fuel ≤ fuel_solver)%nat →
      ∃ ops, run_puzzle_game (λ _ l, reverse l) 1 fuel_solver n = Some (Ok (ops, None)) ∧
             length ops = 9%nat ∧
             ((len ≤ n)%nat → (ops, None) = draw_tiles image_tiles_of_split canonical).
Proof.
  assert (∀ (k : nat) (l : list Z), (λ _ l, reverse l) k l ≡ₚ l) as Hrnd
    by (intros k l; apply reverse_Permutation).
  assert (is_Some (shuffle_tiles (λ _ l, reverse l) 1 0 canonical)) as Hrun
    by (by eexists).
  split; [exact Hrnd|]. split; [exact Hrun|].
  exact (run_puzzle_game_solves (λ _ l, reverse l) 1 Hrnd Hrun).
Defined.

(** * The launcher window *)

Lemma split_on_snoc sep s :
  ∃ pieces name,
    split_on sep s = pieces ++ [name] ∧ has_char sep name = false ∧
    s = join_before sep pieces +:+ name.
Proof.
  induction s as [|c s (pieces & name & Hsplit & Hname & Hs)].
  - by exists [], EmptyString.
  - cbn [split_on]. case_decide as Hc.
    + subst c. exists (EmptyString :: pieces), name. split_and!.
      * by rewrite Hsplit.
      * done.
      * transitivity (String sep (join_before sep pieces +:+ name));
          [by f_equal|reflexivity].
    + rewrite Hsplit. destruct pieces as [|p ps].
      * exists [], (String c name). split_and!; [done| |].
        -- cbn. by rewrite decide_False.
        -- transitivity (String c (join_before sep [] +:+ name));
             [by f_equal|reflexivity].
      * exists (String c p :: ps), name. split_and!; [done|done|].
        transitivity (String c (join_before sep (p :: ps) +:+ name));
          [by f_equal|reflexivity].
Qed.

Lemma item_last {A} (l : list A) (x : A) : item (l ++ [x]) (-1) = Ok x.
Proof.
  unfold item, subscript. rewrite (decide_True (P := -1 < 0)) by lia.
  rewrite length_app. cbn [length]. rewrite decide_True by lia. cbn [res_bind].
  replace (Z.to_nat (-1 + Z.of_nat (length l + 1))) with (length l) by lia.
  by rewrite list_lookup_middle.
Qed.

(** X18.  A dialog that returns a path makes [upload_image] keep the path,
    enable the start button and show "Selected Image: " followed by the part
    of the path after its last slash (the whole path when it has none).  A
    cancelled dialog changes the label only: the path kept and the state of
    the start button stay as they were.  Nothing is raised either way. *)
Theorem upload_image_outcome (file_path : string) (g : gui) :
  ∃ g', upload_image file_path g = Ok g' ∧
    (file_path = EmptyString →
       image_path g' = image_path g ∧ start_enabled g' = start_enabled g ∧
       label_text g' = "No image selected. Please upload an image.") ∧
    (file_path ≠ EmptyString →
       image_path g' = Some file_path ∧ start_enabled g' = true ∧
       ∃ pieces name,
         label_text g' = "Selected Image: " +:+ name ∧
         has_char slash name = false ∧
         file_path = join_before slash pieces +:+ name).
Proof.
  unfold upload_image. case_decide as Hp.
  - destruct (split_on_snoc slash file_path) as (pieces & name & Hsplit & Hname & Hs).
    rewrite Hsplit, item_last. simpl. eexists. split; [done|]. split; [done|].
    intros _. split_and!; [done|done|]. by exists pieces, name.
  - eexists. split; [done|]. split; [done|]. intros Hne. by destruct Hp.
Qed.

Lemma uploads_state (paths : list string) (g : gui) :
  (start_enabled g = true ↔ is_Some (image_path g)) →
  start_game g = image_path g →
  ∃ g', for_each (λ g p, upload_image p g) g paths = Ok g' ∧
    (start_enabled g' = true ↔ is_Some (image_path g')) ∧
    start_game g' = image_path g' ∧
    image_path g' = match last (filter (λ p, p ≠ EmptyString) paths) with
                    | Some p => Some p
                    | None => image_path g
                    end.
Proof.
  revert g. induction paths as [|p paths IH]; intros g Hen Hst.
  - by exists g.
  - destruct (upload_image_outcome p g) as (g1 & Hup & Hempty & Hfull).
    simpl. rewrite Hup. simpl.
    destruct (decide (p = EmptyString)) as [->|Hne].
    + destruct (Hempty eq_refl) as (Hpath & Hbtn & _).
      destruct (IH g1) as (g' & Hrun & Hen' & Hst' & Hlast).
      { by rewrite Hbtn, Hpath. }
      { unfold start_game in *. by rewrite Hpath. }
      exists g'. split_and!; [done|done|done|].
      rewrite filter_cons_False by (by intros []). by rewrite Hlast, Hpath.
    + destruct (Hfull Hne) as (Hpath & Hbtn & _).
      destruct (IH g1) as (g' & Hrun & Hen' & Hst' & Hlast).
      { rewrite Hbtn, Hpath. split; [by eexists|done]. }
      { unfold start_game. rewrite Hpath. by rewrite decide_True. }
      exists g'. split_and!; [done|done|done|].
      rewrite filter_cons_True by done. rewrite Hlast, Hpath.
      by destruct (filter (λ p0, p0 ≠ EmptyString) paths) as [|q l] eqn:E using rev_ind;
        [|rewrite app_comm_cons, !last_snoc].
Qed.

(** X19.  After any sequence of dialogs on the fresh window, the start
    button is enabled exactly when a path is kept, the path kept is the last
    one that a dialog returned (cancelled dialogs do not count), and it is
    the path with which [start_game] launches the game; with no path kept
    [start_game] does nothing. *)
Theorem gui_uploads (paths : list string) :
  ∃ g, for_each (λ g p, upload_image p g) gui_init paths = Ok g ∧
    (start_enabled g = true ↔ is_Some (image_path g)) ∧
    start_game g = image_path g ∧
    image_path g = last (filter (λ p, p ≠ EmptyString) paths).
Proof.
  destruct (uploads_state paths gui_init) as (g & Hrun & Hen & Hst & Hlast).
  - simpl. split; [done|]. by intros [? ?].
  - done.
  - exists g. split_and!; [done|done|done|].
    rewrite Hlast. by destruct (last _).
Qed.

(** * Solvable pairs with any goal *)

Lemma swap12_involutive x : swap12 (swap12 x) = x.
Proof. unfold swap12. repeat case_decide; lia. Qed.

Lemma swap12_blank x : swap12 x = BLANK_TILE ↔ x = BLANK_TILE.
Proof. unfold swap12, BLANK_TILE. repeat case_decide; lia. Qed.

Lemma fmap_swap12_involutive (l : list Z) : swap12 <$> (swap12 <$> l) = l.
Proof.
  rewrite <- list_fmap_compose. rewrite <- (list_fmap_id l) at 2.
  apply list_fmap_ext. intros _ x _. apply swap12_involutive.
Qed.

Lemma move_swap12 (s t : list Z) : move s t → move (swap12 <$> s) (swap12 <$> t).
Proof.
  intros (i & j & x & Hi & Hj & Hadj & ->).
  exists i, j, (swap12 x). split_and!.
  - by rewrite list_lookup_fmap, Hi.
  - by rewrite list_lookup_fmap, Hj.
  - done.
  - by rewrite !list_fmap_insert.
Qed.

Lemma route_swap12 (s t : list Z) (p : list (list Z)) :
  route s p t →
  route (swap12 <$> s) ((λ c : list Z, swap12 <$> c) <$> p) (swap12 <$> t).
Proof.
  induction 1 as [|p y x Hr IH Hm]; [constructor|].
  rewrite fmap_app. econstructor; [done|]. by apply move_swap12.
Qed.

Lemma valid_swap12 (c : list Z) : valid c → valid (swap12 <$> c).
Proof.
  unfold valid. intros ->. apply (bool_decide_unpack _). by vm_compute.
Qed.

Lemma non_blank_swap12 (l : list Z) : non_blank (swap12 <$> l) = swap12 <$> non_blank l.
Proof.
  unfold non_blank. induction l as [|x l IH]; [done|].
  rewrite fmap_cons. destruct (decide (x = BLANK_TILE)) as [Hx|Hx].
  - rewrite !filter_cons_False; [done|by intros []|].
    intros H. by apply H, swap12_blank.
  - rewrite !filter_cons_True; [by rewrite fmap_cons, IH|done|].
    intros H. by apply Hx, swap12_blank.
Qed.

Lemma indicator_swap12 x y :
  1 ≤ x → 1 ≤ y →
  (if decide (swap12 x > swap12 y) then 1 else 0)
  = (if decide (x > y) then 1 else 0)
    + (if decide (x = 1) then (if decide (y = 2) then 1 else 0)
       else if decide (x = 2) then - (if decide (y = 1) then 1 else 0) else 0).
Proof. intros Hx Hy. unfold swap12. repeat case_decide; lia. Qed.

Lemma occ_cons x y l : occ x (y :: l) = (if decide (y = x) then 1 else 0) + occ x l.
Proof. done. Qed.

Lemma count_smaller_swap12 x (l : list Z) :
  Forall (λ y, 1 ≤ y) l → 1 ≤ x →
  count_smaller (swap12 x) (swap12 <$> l)
  = count_smaller x l
    + (if decide (x = 1) then occ 2 l else if decide (x = 2) then - occ 1 l else 0).
Proof.
  intros Hl Hx. induction Hl as [|y l Hy Hl IH].
  - cbn. repeat case_decide; lia.
  - rewrite fmap_cons, !count_smaller_cons, !occ_cons, IH.
    rewrite (indicator_swap12 x y Hx Hy). repeat case_decide; lia.
Qed.

Lemma inv_count_swap12 (l : list Z) :
  Forall (λ y, 1 ≤ y) l → inv_count (swap12 <$> l) = inv_count l + cross12 l.
Proof.
  induction 1 as [|x l Hx Hl IH]; [done|].
  rewrite fmap_cons. cbn [inv_count cross12].
  rewrite count_smaller_swap12 by done. lia.
Qed.

Lemma occ_not_elem x l : x ∉ l → occ x l = 0.
Proof.
  unfold occ, sum_Z. induction l as [|y l IH]; [done|].
  rewrite not_elem_of_cons. intros [Hne Hl]. rewrite fmap_cons. cbn [foldr].
  rewrite decide_False by done. rewrite IH by done. lia.
Qed.

Lemma occ_NoDup x l : NoDup l → x ∈ l → occ x l = 1.
Proof.
  intros Hnd. induction Hnd as [|y l Hy Hnd IH]; [by intros ?%elem_of_nil|].
  intros Hin. unfold occ, sum_Z in *. rewrite fmap_cons. cbn [foldr].
  apply elem_of_cons in Hin as [<-|Hin].
  - rewrite decide_True by done. pose proof (occ_not_elem x l Hy) as H0.
    unfold occ, sum_Z in H0. lia.
  - rewrite decide_False by (intros ->; done). rewrite IH by done. lia.
Qed.

Lemma cross12_no1 l : 1 ∉ l → cross12 l = 0.
Proof.
  induction l as [|x l IH]; [done|].
  rewrite not_elem_of_cons. intros [Hne Hl]. cbn [cross12].
  rewrite decide_False by done. rewrite (occ_not_elem 1 l Hl), IH by done.
  case_decide; lia.
Qed.

Lemma cross12_no2 l : 2 ∉ l → cross12 l = 0.
Proof.
  induction l as [|x l IH]; [done|].
  rewrite not_elem_of_cons. intros [Hne Hl]. cbn [cross12].
  rewrite (decide_False (P := x = 2)) by done.
  rewrite (occ_not_elem 2 l Hl), IH by done. case_decide; lia.
Qed.

Lemma cross12_NoDup l : NoDup l → 1 ∈ l → 2 ∈ l → cross12 l = 1 ∨ cross12 l = -1.
Proof.
  intros Hnd. induction Hnd as [|x l Hx Hnd IH]; [by intros ?%elem_of_nil|].
  intros H1 H2. cbn [cross12].
  apply elem_of_cons in H1 as [H1|H1]; apply elem_of_cons in H2 as [H2|H2].
  - lia.
  - subst x. rewrite decide_True by done.
    rewrite (occ_NoDup 2 l Hnd H2), (cross12_no1 l Hx). lia.
  - subst x. rewrite decide_False by done. rewrite decide_True by done.
    rewrite (occ_NoDup 1 l Hnd H1), (cross12_no2 l Hx). lia.
  - rewrite !decide_False by (intros ->; done). destruct (IH H1 H2); lia.
Qed.

Lemma valid_non_blank c : valid c → non_blank c ≡ₚ tiles.
Proof. unfold valid, non_blank. by intros ->. Qed.

Lemma is_solvable_swap12 (c : list Z) :
  valid c → is_solvable (swap12 <$> c) = negb (is_solvable c).
Proof.
  intros Hv. rewrite !is_solvable_even, non_blank_swap12.
  pose proof (valid_non_blank c Hv) as Hp.
  assert (NoDup (non_blank c)) as Hnd
    by (rewrite Hp; apply (bool_decide_unpack _); by vm_compute).
  assert (1 ∈ non_blank c) as H1 by (rewrite Hp; by left).
  assert (2 ∈ non_blank c) as H2 by (rewrite Hp; right; by left).
  assert (Forall (λ y, 1 ≤ y) (non_blank c)) as Hpos
    by (rewrite Hp; unfold tiles; repeat constructor; lia).
  rewrite (inv_count_swap12 _ Hpos), Z.negb_even.
  destruct (cross12_NoDup _ Hnd H1 H2) as [-> | ->].
  - replace (inv_count (non_blank c) + 1) with (Z.succ (inv_count (non_blank c))) by lia.
    apply Z.even_succ.
  - replace (inv_count (non_blank c) + -1) with (Z.pred (inv_count (non_blank c))) by lia.
    apply Z.even_pred.
Qed.

Lemma solvable_route s g :
  valid s → valid g → is_solvable s = true → is_solvable g = true →
  ∃ q, route s q g.
Proof.
  intros Hs Hg Hss Hsg.
  destruct (solvable_reach_within s Hs Hss) as (p1 & Hp1 & _).
  destruct (solvable_reach_within g Hg Hsg) as (p2 & Hp2 & _).
  destruct (route_rev _ _ _ Hp1) as (q1 & Hq1 & _).
  exists (q1 ++ p2). by eapply route_app.
Qed.

Lemma equal_parity_route s g :
  valid s → valid g → is_solvable s = is_solvable g → ∃ q, route s q g.
Proof.
  intros Hs Hg Heq. destruct (is_solvable s) eqn:Hss.
  - by apply solvable_route.
  - destruct (solvable_route (swap12 <$> s) (swap12 <$> g)) as [q Hq].
    + by apply valid_swap12.
    + by apply valid_swap12.
    + by rewrite is_solvable_swap12, Hss.
    + by rewrite is_solvable_swap12, <- Heq.
    + apply route_swap12 in Hq. rewrite !fmap_swap12_involutive in Hq. by eexists.
Qed.

(** X20.  [is_solvable] settles reachability for any goal, not only for the
    goal of the game: between valid configurations a walk of legal moves
    exists exactly when [is_solvable] gives both the same verdict. *)
Theorem solvable_pair (start goal : list Z) :
  valid start → valid goal →
  ((∃ q, route start q goal) ↔ is_solvable start = is_solvable goal).
Proof.
  intros Hs Hg. split.
  - intros [q Hq]. symmetry. by eapply route_is_solvable.
  - by apply equal_parity_route.
Qed.

Lemma solvable_pair_witness :
  valid ex_start ∧ valid ex_goal ∧
  ((∃ q, route ex_start q ex_goal) ↔ is_solvable ex_start = is_solvable ex_goal).
Proof.
  split; [exact valid_ex_start|]. split; [exact valid_ex_goal|].
  exact (solvable_pair ex_start ex_goal valid_ex_start valid_ex_goal).
Defined.

(** X21.  For valid configurations on which [is_solvable] agrees, the
    solver returns a walk of legal moves from the start to the goal; it is
    empty only when the start is the goal. *)
Theorem a_star_solver_equal_parity (start goal : list Z) :
  valid start → valid goal → is_solvable start = is_solvable goal →
  ∃ path, returns start goal (Ok path) ∧ route start path goal ∧
          (path = [] ↔ start = goal).
Proof.
  intros Hs Hg Heq. destruct (equal_parity_route start goal Hs Hg Heq) as [q Hq].
  destruct (a_star_solver_total start goal Hs Hg) as (path & Hret & Hnot & _ & Hopt).
  destruct (Hopt q Hq) as [Hr _].
  exists path. split_and!; [done|done|]. split.
  - intros ->. by inversion Hr; [|destruct p].
  - intros <-. destruct (Hopt [] (route_nil start)) as [_ Hle].
    destruct path; [done|simpl in Hle; lia].
Qed.

Lemma a_star_solver_equal_parity_witness :
  valid ex_start ∧ valid ex_goal ∧ is_solvable ex_start = is_solvable ex_goal ∧
  ∃ path, returns ex_start ex_goal (Ok path) ∧ route ex_start path ex_goal ∧
          (path = [] ↔ ex_start = ex_goal).
Proof.
  split; [exact valid_ex_start|]. split; [exact valid_ex_goal|]. split; [reflexivity|].
  exact (a_star_solver_equal_parity ex_start ex_goal valid_ex_start valid_ex_goal eq_refl).
Defined.
